(** * SHA-256 (sha256.py): a shallow embedding and its properties

    The script computes the SHA-256 digest of a file.  Python integers are
    unbounded, so every word is a [Z] and each wrap-around is the explicit
    [mod 2 ^ 32] the source writes.  Byte strings are [list byte].  The
    module-level list [H] is mutated in place by [compute_hash]; it lives in
    a [world] record that is threaded through a small state-and-exception
    monad, together with what [main] prints on standard error. *)

From Stdlib Require Import ZArith List Lia ZifyNat Bool String Ascii HexString.
From Stdlib Require Import Init.Byte.
From coqutil Require Import Byte.
From Equations Require Import Equations.
Import ListNotations.

Local Open Scope Z_scope.

(** [length] is the length of a list throughout; the length of a string is
    written [String.length]. *)
#[local] Abbreviation length := Datatypes.length.

(* ===================================================================== *)
(** ** Python values and built-ins used by the script *)
(* ===================================================================== *)

(** Exceptions the script can raise.  The two [assert] statements of
    [perform_padding] and the one of [compute_hash] are told apart by their
    site. *)
Inductive assert_site : Type :=
| BadChunkSize      (* perform_padding: len(chunck) <= 64 *)
| BadInputSize      (* perform_padding: input_size < 2 ** 64 *)
| BadBlockSize.     (* compute_hash: len(block) == BLOCK_SIZE_BYTE *)

Inductive exn : Type :=
| AssertionError (site : assert_site)
| OverflowError                 (* int.to_bytes on a value that does not fit *)
| IndexError                    (* list index out of range *)
| ValueError                    (* tuple unpacking of the wrong length *)
| SystemExit (code : Z).        (* exit(code) *)

Inductive result (A : Type) : Type :=
| Ok (a : A)
| Raise (e : exn).
Arguments Ok {A} a.
Arguments Raise {A} e.

(** What [main] writes on standard error. *)
Inductive message : Type :=
| Usage
| FileNotFound (file : string)
| FileTooBig (file : string).

(** [range(start, stop, step)] for a positive step, as the list it iterates. *)
Definition range (start stop step : nat) : list nat :=
  map (fun j => (start + j * step)%nat)
      (seq 0 ((stop - start + (step - 1)) / step)).

(** [l[i:j]] for [0 <= i <= j]; like Python it is cut at the end of [l]. *)
Definition slice {A} (l : list A) (i j : nat) : list A :=
  firstn (j - i) (skipn i l).

(** [l[i]] for [0 <= i]. *)
Definition index {A} (l : list A) (i : nat) : result A :=
  match nth_error l i with
  | Some x => Ok x
  | None => Raise IndexError
  end.

(** The list after [l[i] = v]. *)
Fixpoint set_index {A} (l : list A) (i : nat) (v : A) : result (list A) :=
  match l, i with
  | [], _ => Raise IndexError
  | _ :: t, O => Ok (v :: t)
  | x :: t, S i' =>
      match set_index t i' v with
      | Ok t' => Ok (x :: t')
      | Raise e => Raise e
      end
  end.

(** [enumerate(l)]. *)
Definition enumerate {A} (l : list A) : list (nat * A) :=
  combine (seq 0 (length l)) l.

(** [int.from_bytes(bs, byteorder = 'big', signed = False)]. *)
Definition from_bytes_big (bs : list byte) : Z :=
  fold_left (fun acc b => acc * 256 + byte.unsigned b) bs 0.

(** The [n] low-order bytes of [z], most significant first. *)
Fixpoint big_endian (n : nat) (z : Z) : list byte :=
  match n with
  | O => []
  | S n' => big_endian n' (Z.shiftr z 8) ++ [byte.of_Z z]
  end.

(** [z.to_bytes(n, byteorder = 'big', signed = False)]. *)
Definition to_bytes_big (z : Z) (n : nat) : result (list byte) :=
  if z <? 0 then Raise OverflowError
  else if 2 ^ (8 * Z.of_nat n) <=? z then Raise OverflowError
  else Ok (big_endian n z).

(** [f'{z:x}']: lowercase hexadecimal, no prefix, no padding. *)
Definition format_x (z : Z) : string :=
  match z with
  | Z0 => "0"
  | Zpos p => HexString.Raw.of_pos p EmptyString
  | Zneg p => String "-" (HexString.Raw.of_pos p EmptyString)
  end%string.

(* ===================================================================== *)
(** ** Primitives (sha256.py, lines 11-36) *)
(* ===================================================================== *)

Definition BLOCK_SIZE_BYTE : nat := 64.

Definition rotr (x n : Z) : Z :=
  Z.lor (Z.shiftr x n) ((Z.shiftl x (32 - n)) mod 2 ^ 32).

Definition ch (x y z : Z) : Z :=
  Z.lxor (Z.land x y) (Z.land (Z.lnot x) z).

Definition maj (x y z : Z) : Z :=
  Z.lxor (Z.lxor (Z.land x y) (Z.land x z)) (Z.land y z).

Definition bsig0 (x : Z) : Z :=
  Z.lxor (Z.lxor (rotr x 2) (rotr x 13)) (rotr x 22).

Definition bsig1 (x : Z) : Z :=
  Z.lxor (Z.lxor (rotr x 6) (rotr x 11)) (rotr x 25).

Definition ssig0 (x : Z) : Z :=
  Z.lxor (Z.lxor (rotr x 7) (rotr x 18)) (Z.shiftr x 3).

Definition ssig1 (x : Z) : Z :=
  Z.lxor (Z.lxor (rotr x 17) (rotr x 19)) (Z.shiftr x 10).

(* ===================================================================== *)
(** ** Constants (lines 40-57) *)
(* ===================================================================== *)

(** The hexadecimal digits are the source's, written in upper case. *)
Definition K : list Z :=
  [ 0x428A2F98; 0x71374491; 0xB5C0FBCF; 0xE9B5DBA5; 0x3956C25B; 0x59F111F1; 0x923F82A4; 0xAB1C5ED5;
    0xD807AA98; 0x12835B01; 0x243185BE; 0x550C7DC3; 0x72BE5D74; 0x80DEB1FE; 0x9BDC06A7; 0xC19BF174;
    0xE49B69C1; 0xEFBE4786; 0x0FC19DC6; 0x240CA1CC; 0x2DE92C6F; 0x4A7484AA; 0x5CB0A9DC; 0x76F988DA;
    0x983E5152; 0xA831C66D; 0xB00327C8; 0xBF597FC7; 0xC6E00BF3; 0xD5A79147; 0x06CA6351; 0x14292967;
    0x27B70A85; 0x2E1B2138; 0x4D2C6DFC; 0x53380D13; 0x650A7354; 0x766A0ABB; 0x81C2C92E; 0x92722C85;
    0xA2BFE8A1; 0xA81A664B; 0xC24B8B70; 0xC76C51A3; 0xD192E819; 0xD6990624; 0xF40E3585; 0x106AA070;
    0x19A4C116; 0x1E376C08; 0x2748774C; 0x34B0BCB5; 0x391C0CB3; 0x4ED8AA4A; 0x5B9CCA4F; 0x682E6FF3;
    0x748F82EE; 0x78A5636F; 0x84C87814; 0x8CC70208; 0x90BEFFFA; 0xA4506CEB; 0xBEF9A3F7; 0xC67178F2 ].

(** The value the module-level list [H] is bound to when the module loads. *)
Definition H_initial : list Z :=
  [ 0x6A09E667; 0xBB67AE85;
    0x3C6EF372; 0xA54FF53A;
    0x510E527F; 0x9B05688C;
    0x1F83D9AB; 0x5BE0CD19 ].

(* ===================================================================== *)
(** ** The world and the monad *)
(* ===================================================================== *)

(** The mutable state the script acts on: the global list [H] and the text
    written on standard error so far. *)
Record world : Type := mkWorld {
  H : list Z;
  stderr : list message
}.

Definition with_H (w : world) (h : list Z) : world :=
  {| H := h; stderr := stderr w |}.

Definition initial_world : world :=
  {| H := H_initial; stderr := [] |}.

(** A computation reads and writes the world and either returns or raises;
    the world at the time of the exception is kept, as in Python. *)
Definition M (A : Type) : Type := world -> world * result A.

Definition ret {A} (a : A) : M A := fun w => (w, Ok a).

Definition raise {A} (e : exn) : M A := fun w => (w, Raise e).

Definition bind {A B} (m : M A) (k : A -> M B) : M B :=
  fun w =>
    match m w with
    | (w', Ok a) => k a w'
    | (w', Raise e) => (w', Raise e)
    end.

Definition lift {A} (r : result A) : M A := fun w => (w, r).

Definition get_H : M (list Z) := fun w => (w, Ok (H w)).

Definition put_H (h : list Z) : M unit := fun w => (with_H w h, Ok tt).

Definition print_stderr (m : message) : M unit :=
  fun w => ({| H := H w; stderr := stderr w ++ [m] |}, Ok tt).

Definition assert (b : bool) (site : assert_site) : M unit :=
  if b then ret tt else raise (AssertionError site).

Declare Scope monad_scope.
Delimit Scope monad_scope with monad.
Notation "x <- m ;; k" := (bind m (fun x => k))
  (at level 61, m at next level, right associativity) : monad_scope.
Notation "m ;; k" := (bind m (fun _ => k))
  (at level 61, right associativity) : monad_scope.
Local Open Scope monad_scope.

(** [for x in l: body(x)]. *)
Fixpoint for_each {A} (l : list A) (body : A -> M unit) : M unit :=
  match l with
  | [] => ret tt
  | x :: l' => body x ;; for_each l' body
  end.

(** The same bind for code that only computes and may raise. *)
Definition rbind {A B} (r : result A) (k : A -> result B) : result B :=
  match r with
  | Ok a => k a
  | Raise e => Raise e
  end.

(** [for x in l: acc = body(acc, x)] for a loop that only updates locals. *)
Fixpoint fold_result {A S} (body : S -> A -> result S) (l : list A) (acc : S)
  : result S :=
  match l with
  | [] => Ok acc
  | x :: l' => rbind (body acc x) (fold_result body l')
  end.

Declare Scope result_scope.
Delimit Scope result_scope with result.
Notation "x <- r ;; k" := (rbind r (fun x => k))
  (at level 61, r at next level, right associativity) : result_scope.

(* ===================================================================== *)
(** ** perform_padding (lines 60-76) *)
(* ===================================================================== *)

Definition perform_padding (chunck : list byte) (input_size : Z)
  : result (list byte) :=
  if negb (length chunck <=? 64)%nat then Raise (AssertionError BadChunkSize)
  else if negb (input_size <? 2 ^ 64) then Raise (AssertionError BadInputSize)
  else
    let l := input_size in
    let k := (440 - l) mod 512 in
    (length_field <- to_bytes_big l 8 ;;
     Ok (chunck ++ [x80] ++ repeat x00 (Z.to_nat (Z.shiftr k 3))
                ++ length_field))%result.

(* ===================================================================== *)
(** ** compute_hash (lines 78-107) *)
(* ===================================================================== *)

(** The eight working variables [a, b, c, d, e, f, g, h]. *)
Definition vars : Type := (Z * Z * Z * Z * Z * Z * Z * Z)%type.

(** [a, b, c, d, e, f, g, h = l]. *)
Definition unpack8 (l : list Z) : result vars :=
  match l with
  | [a; b; c; d; e; f; g; h] => Ok (a, b, c, d, e, f, g, h)
  | _ => Raise ValueError
  end.

(** Lines 85-86: one iteration of the loop that parses the block. *)
Definition parse_step (block : list byte) (words : list Z) (wi : nat)
  : list Z :=
  words ++ [from_bytes_big (slice block (wi * 4) (wi * 4 + 4))].

(** Lines 89-90: one iteration of the loop that extends the schedule. *)
Definition extend_step (words : list Z) (wi : nat) : result (list Z) :=
  (w2 <- index words (wi - 2) ;;
   w7 <- index words (wi - 7) ;;
   w15 <- index words (wi - 15) ;;
   w16 <- index words (wi - 16) ;;
   let word := (ssig1 w2 + w7 + ssig0 w15 + w16) mod 2 ^ 32 in
   Ok (words ++ [word]))%result.

(** Lines 95-104: one round. *)
Definition round_step (words : list Z) (v : vars) (t : nat) : result vars :=
  let '(a, b, c, d, e, f, g, h) := v in
  (k_t <- index K t ;;
   w_t <- index words t ;;
   let t1 := (h + bsig1 e + ch e f g + k_t + w_t) mod 2 ^ 32 in
   let t2 := (bsig0 a + maj a b c) mod 2 ^ 32 in
   let h := g in
   let g := f in
   let f := e in
   let e := (d + t1) mod 2 ^ 32 in
   let d := c in
   let c := b in
   let b := a in
   let a := (t1 + t2) mod 2 ^ 32 in
   Ok (a, b, c, d, e, f, g, h))%result.

(** Line 107: [H[i] = (x + H[i]) % 2 ** 32] on the global list. *)
Definition add_to_H (ix : nat * Z) : M unit :=
  let '(i, x) := ix in
  cur <- get_H ;;
  h_i <- lift (index cur i) ;;
  new <- lift (set_index cur i ((x + h_i) mod 2 ^ 32)) ;;
  put_H new.

Definition compute_hash (block : list byte) : M unit :=
  assert (length block =? BLOCK_SIZE_BYTE)%nat BadBlockSize ;;
  let words := [] in
  let words_count := Nat.shiftr (length block) 2 in
  let words := fold_left (parse_step block) (range 0 words_count 1) words in
  words <- lift (fold_result extend_step (range 16 BLOCK_SIZE_BYTE 1) words) ;;
  cur <- get_H ;;
  v <- lift (unpack8 (skipn 0 cur)) ;;
  v <- lift (fold_result (round_step words) (range 0 BLOCK_SIZE_BYTE 1) v) ;;
  let '(a, b, c, d, e, f, g, h) := v in
  for_each (enumerate [a; b; c; d; e; f; g; h]) add_to_H.

(* ===================================================================== *)
(** ** main (lines 110-146) *)
(* ===================================================================== *)

(** A regular file as the script sees it: the size [os.stat] reports and
    the bytes [read] delivers.  The two are separate because the script
    obtains them separately; they agree on a file that does not change and
    whose size is what it holds.  Only files that [open] and [read] deliver
    without error are described: an [OSError] raised there would leave
    [main] as it is raised, and no theorem below speaks of such a run. *)
Record file : Type := mkFile {
  st_size : Z;
  content : list byte
}.

(** The file system: [None] where [os.path.isfile] answers [False]. *)
Definition filesystem : Type := string -> option file.

(** Lines 141-142: the blocks of one (possibly padded) chunk. *)
Definition hash_chunck (chunck : list byte) : M unit :=
  for_each (range 0 (length chunck) BLOCK_SIZE_BYTE)
           (fun i => compute_hash (slice chunck i (i + BLOCK_SIZE_BYTE))).

(** Lines 135-144: the loop [while chunck := f.read(BLOCK_SIZE_BYTE)].
    [rest] is what the open file has not delivered yet; [read] returns the
    empty byte string, which ends the loop, exactly when nothing is left. *)
Equations read_loop (rest : list byte) (nb_chuncks file_size : Z) : M unit
  by wf (length rest) lt :=
  read_loop [] _ _ := ret tt;
  read_loop (b :: r) nb_chuncks file_size :=
    let chunck := firstn BLOCK_SIZE_BYTE (b :: r) in
    chunck <- (if nb_chuncks =? 1
               then lift (perform_padding chunck file_size)
               else ret chunck) ;;
    hash_chunck chunck ;;
    read_loop (skipn BLOCK_SIZE_BYTE (b :: r)) (nb_chuncks - 1) file_size.
Next Obligation.
  intros. change (length (skipn 63 r) < S (length r))%nat.
  rewrite length_skipn. lia.
Qed.

(** Lines 110-146.  The file named on the command line is looked up in
    [fs]; [open] and [read] are taken to succeed on it (see [file]). *)
Definition main (argv : list string) (fs : filesystem) : M string :=
  if negb (length argv =? 2)%nat then
    print_stderr Usage ;;
    raise (SystemExit 0)
  else
    file <- lift (index argv 1) ;;
    match fs file with
    | None =>
        print_stderr (FileNotFound file) ;;
        raise (SystemExit 0)
    | Some f =>
        let file_size := st_size f * 8 in
        if 2 ^ 64 <=? file_size then
          print_stderr (FileTooBig file) ;;
          raise (SystemExit 0)
        else
          (if file_size =? 0 then
             block <- lift (perform_padding [] file_size) ;;
             compute_hash block
           else
             let nb_chuncks := Z.shiftr file_size 9 in
             let nb_chuncks :=
               if negb (file_size mod (Z.of_nat BLOCK_SIZE_BYTE * 8) =? 0)
               then nb_chuncks + 1 else nb_chuncks in
             read_loop (content f) nb_chuncks file_size) ;;
          cur <- get_H ;;
          ret (String.concat EmptyString (map format_x cur))
    end.

(* ===================================================================== *)
(** ** Concrete inputs used in the examples *)
(* ===================================================================== *)

(** The bytes of an ASCII string literal. *)
Definition bytes_of_string (s : string) : list byte :=
  map byte_of_ascii (list_ascii_of_string s).

(** A regular file holding [c]: [os.stat] reports the number of bytes. *)
Definition regular_file (c : list byte) : file :=
  {| st_size := Z.of_nat (length c); content := c |}.

(** A file system with a single regular file, named [name]. *)
Definition single_file (name : string) (c : list byte) : filesystem :=
  fun path => if String.eqb path name then Some (regular_file c) else None.

(** The command line [sha256.py input]. *)
Definition argv_input : list string := ["sha256.py"; "input"]%string.

(* ===================================================================== *)
(** ** Reference definitions the code is compared with *)
(* ===================================================================== *)

(** The 32-bit word four bytes denote, most significant byte first. *)
Definition big_endian_word (b0 b1 b2 b3 : byte) : Z :=
  byte.unsigned b0 * 2 ^ 24 + byte.unsigned b1 * 2 ^ 16
  + byte.unsigned b2 * 2 ^ 8 + byte.unsigned b3.

(** Word [t] of a block read as 16 big-endian words. *)
Definition block_word (block : list byte) (t : nat) : Z :=
  big_endian_word (nth (4 * t) block x00) (nth (4 * t + 1) block x00)
                  (nth (4 * t + 2) block x00) (nth (4 * t + 3) block x00).

(** [W] is the message schedule of [block]: its first 16 words are the
    block's, and each later word follows the recurrence. *)
Definition message_schedule (block : list byte) (W : nat -> Z) : Prop :=
  (forall t, (t < 16)%nat -> W t = block_word block t) /\
  (forall t, (16 <= t < 64)%nat ->
     W t = (ssig1 (W (t - 2)%nat) + W (t - 7)%nat
            + ssig0 (W (t - 15)%nat) + W (t - 16)%nat) mod 2 ^ 32).

(** Round [t] on the working variables. *)
Definition spec_round (W : nat -> Z) (t : nat) (v : vars) : vars :=
  let '(a, b, c, d, e, f, g, h) := v in
  let T1 := (h + bsig1 e + ch e f g + nth t K 0 + W t) mod 2 ^ 32 in
  let T2 := (bsig0 a + maj a b c) mod 2 ^ 32 in
  ((T1 + T2) mod 2 ^ 32, a, b, c, (d + T1) mod 2 ^ 32, e, f, g).

(** Rounds [0 .. n-1], in increasing order. *)
Fixpoint spec_rounds (W : nat -> Z) (n : nat) (v : vars) : vars :=
  match n with
  | O => v
  | S n' => spec_round W n' (spec_rounds W n' v)
  end.

(** Element-wise sum modulo [2 ^ 32]. *)
Definition add_state (v old : vars) : vars :=
  let '(a, b, c, d, e, f, g, h) := v in
  let '(h0, h1, h2, h3, h4, h5, h6, h7) := old in
  ((a + h0) mod 2 ^ 32, (b + h1) mod 2 ^ 32, (c + h2) mod 2 ^ 32,
   (d + h3) mod 2 ^ 32, (e + h4) mod 2 ^ 32, (f + h5) mod 2 ^ 32,
   (g + h6) mod 2 ^ 32, (h + h7) mod 2 ^ 32).

(** The compression of one block with schedule [W] from state [old]. *)
Definition spec_compress (W : nat -> Z) (old : vars) : vars :=
  add_state (spec_rounds W 64 old) old.

(** A hash state as the list [H] holds it. *)
Definition vars_list (v : vars) : list Z :=
  let '(a, b, c, d, e, f, g, h) := v in [a; b; c; d; e; f; g; h].

(** The number of zero bytes [perform_padding] appends, as it computes it. *)
Definition zero_fill (input_size : Z) : nat :=
  Z.to_nat (Z.shiftr ((440 - input_size) mod 512) 3).

(** What padding appends to a message of [n] bytes: the byte 0x80, the
    least number of zero bytes that leaves exactly 8 bytes to the next
    64-byte boundary, and the bit length on 8 bytes, big-endian. *)
Definition padding_tail (n : nat) : list byte :=
  [x80] ++ repeat x00 (Z.to_nat ((55 - Z.of_nat n) mod 64))
        ++ big_endian 8 (8 * Z.of_nat n).

(** Padding of a whole message in one go. *)
Definition pad_message (msg : list byte) : list byte :=
  msg ++ padding_tail (length msg).

(** The successive 64-byte blocks of a byte string. *)
Definition blocks_of (l : list byte) : list (list byte) :=
  map (fun j => firstn 64 (skipn (64 * j) l)) (seq 0 (length l / 64)).

(** Single-shot hashing: pad the whole message, then compress its blocks in
    order. *)
Definition one_shot (msg : list byte) : M unit :=
  for_each (blocks_of (pad_message msg)) compute_hash.

(** Line 146, the last statement of [main]: the digest string built from
    the final [H]. *)
Definition hexdigest : M string :=
  cur <- get_H ;;
  ret (String.concat EmptyString (map format_x cur)).

(** An unsigned 32-bit word. *)
Definition is_word (x : Z) : Prop := 0 <= x < 2 ^ 32.

(* ===================================================================== *)
(** ** Facts about the built-ins *)
(* ===================================================================== *)

Lemma map_shift_seq (a s n : nat) :
  map (fun j => (a + j * 1)%nat) (seq s n) = seq (a + s) n.
Proof.
  revert s. induction n as [|n IH]; intros s; simpl; [reflexivity|].
  rewrite Nat.mul_1_r. f_equal. rewrite IH. f_equal. lia.
Qed.

Lemma range_step1 (a b : nat) : range a b 1 = seq a (b - a).
Proof.
  unfold range. rewrite Nat.sub_diag, Nat.add_0_r, Nat.div_1_r.
  rewrite map_shift_seq, Nat.add_0_r. reflexivity.
Qed.

Lemma from_bytes_big_snoc (bs : list byte) (b : byte) :
  from_bytes_big (bs ++ [b]) = from_bytes_big bs * 256 + byte.unsigned b.
Proof. unfold from_bytes_big. rewrite fold_left_app. reflexivity. Qed.

Lemma big_endian_length (n : nat) (z : Z) : length (big_endian n z) = n.
Proof.
  revert z. induction n as [|n IH]; intros z; simpl; [reflexivity|].
  rewrite length_app, IH. simpl. lia.
Qed.

(** Decoding the [n]-byte big-endian encoding gives the value back, cut to
    [8 * n] bits. *)
Lemma from_bytes_big_endian (n : nat) (z : Z) :
  from_bytes_big (big_endian n z) = z mod 2 ^ (8 * Z.of_nat n).
Proof.
  revert z. induction n as [|n IH]; intros z.
  - simpl. rewrite Z.mod_1_r. reflexivity.
  - cbn [big_endian]. rewrite from_bytes_big_snoc, IH, byte.unsigned_of_Z.
    unfold byte.wrap. rewrite Z.shiftr_div_pow2 by lia.
    replace (8 * Z.of_nat (S n)) with (8 + 8 * Z.of_nat n) by lia.
    rewrite Z.pow_add_r by lia.
    rewrite (Z.rem_mul_r z (2 ^ 8) (2 ^ (8 * Z.of_nat n))) by lia.
    change (2 ^ 8) with 256. lia.
Qed.

Lemma to_bytes_big_ok (z : Z) (n : nat) :
  0 <= z < 2 ^ (8 * Z.of_nat n) -> to_bytes_big z n = Ok (big_endian n z).
Proof.
  intros [Hlo Hhi]. unfold to_bytes_big.
  destruct (Z.ltb_spec z 0); [lia|].
  destruct (Z.leb_spec (2 ^ (8 * Z.of_nat n)) z); [lia|]. reflexivity.
Qed.

Example rotr_one : rotr 1 1 = 0x80000000.
Proof. reflexivity. Qed.

Example rotr_word : rotr 0x12345678 8 = 0x78123456.
Proof. reflexivity. Qed.

Example ch_selects : ch 0xffff0000 0x12345678 0x9abcdef0 = 0x1234def0.
Proof. reflexivity. Qed.

Example maj_votes : maj 0xff00ff00 0xffff0000 0x0f0f0f0f = 0xff0f0f00.
Proof. reflexivity. Qed.

Example format_x_drops_zeros : format_x 0x0039594a = "39594a"%string.
Proof. reflexivity. Qed.

Example big_endian_24 :
  big_endian 8 24 = [x00; x00; x00; x00; x00; x00; x00; x18].
Proof. reflexivity. Qed.

(* ===================================================================== *)
(** ** Facts about perform_padding *)
(* ===================================================================== *)

Lemma zero_fill_eq (L : Z) :
  Z.of_nat (zero_fill L) = (55 - (L + 7) / 8) mod 64.
Proof.
  unfold zero_fill. rewrite Z.shiftr_div_pow2 by lia. change (2 ^ 3) with 8.
  rewrite Z2Nat.id by (apply Z.div_pos; [apply Z.mod_pos_bound|]; lia).
  Z.div_mod_to_equations. lia.
Qed.

(** What [perform_padding] returns whenever both assertions pass and the
    length fits the length field. *)
Lemma perform_padding_ok (chunck : list byte) (L : Z) :
  (length chunck <= 64)%nat -> 0 <= L < 2 ^ 64 ->
  perform_padding chunck L =
    Ok (chunck ++ [x80] ++ repeat x00 (zero_fill L) ++ big_endian 8 L).
Proof.
  intros Hc HL. unfold perform_padding.
  rewrite (proj2 (Nat.leb_le _ _) Hc), (proj2 (Z.ltb_lt _ _) (proj2 HL)).
  cbn [negb]. cbv zeta.
  rewrite to_bytes_big_ok by (change (8 * Z.of_nat 8) with 64; lia).
  reflexivity.
Qed.

Lemma padded_length (chunck : list byte) (L : Z) :
  length (chunck ++ [x80] ++ repeat x00 (zero_fill L) ++ big_endian 8 L)
  = (length chunck + 1 + zero_fill L + 8)%nat.
Proof.
  rewrite !length_app, repeat_length, big_endian_length. simpl. lia.
Qed.

(** The output is made of whole blocks exactly when the chunk length is
    congruent modulo 64 to the number of bytes that hold [L] bits. *)
Lemma perform_padding_aligned_iff (chunck : list byte) (L : Z) :
  (length (chunck ++ [x80] ++ repeat x00 (zero_fill L) ++ big_endian 8 L)
   mod 64 = 0)%nat
  <-> ((L + 7) / 8) mod 64 = Z.of_nat (length chunck) mod 64.
Proof.
  rewrite padded_length. pose proof (zero_fill_eq L) as Hz. revert Hz.
  generalize (zero_fill L). intros z Hz.
  split; intros E; zify; Z.div_mod_to_equations; lia.
Qed.

(* ===================================================================== *)
(** ** Facts about the monad and the loops *)
(* ===================================================================== *)

Lemma bind_ret_tt (m : M unit) (w : world) : (m ;; ret tt) w = m w.
Proof.
  unfold bind, ret. destruct (m w) as [w' [[]|e]]; reflexivity.
Qed.

Lemma bind_assoc {A B C} (m : M A) (k : A -> M B) (k' : B -> M C) (w : world) :
  bind (bind m k) k' w = bind m (fun a => bind (k a) k') w.
Proof.
  unfold bind. destruct (m w) as [w' [a|e]]; reflexivity.
Qed.

Lemma bind_cong {A B} (m m' : M A) (k : A -> M B) (w : world) :
  m w = m' w -> bind m k w = bind m' k w.
Proof. unfold bind. intros ->. reflexivity. Qed.

Lemma bind_cong_r {A B} (m : M A) (k k' : A -> M B) (w : world) :
  (forall a w', k a w' = k' a w') -> bind m k w = bind m k' w.
Proof.
  intros E. unfold bind. destruct (m w) as [w' [a|e]]; [apply E|reflexivity].
Qed.

Lemma for_each_map {A B} (g : A -> B) (l : list A) (body : B -> M unit) :
  for_each (map g l) body = for_each l (fun x => body (g x)).
Proof.
  induction l as [|x l IH]; simpl; [reflexivity|]. rewrite IH. reflexivity.
Qed.

Lemma for_each_ext {A} (l : list A) (body body' : A -> M unit) :
  (forall x, In x l -> body x = body' x) ->
  for_each l body = for_each l body'.
Proof.
  induction l as [|x l IH]; intros E; simpl; [reflexivity|].
  rewrite (E x (or_introl eq_refl)), IH; [reflexivity|].
  intros y Hy. apply E. right. exact Hy.
Qed.

(* ===================================================================== *)
(** ** Blocks of a byte string *)
(* ===================================================================== *)

Lemma blocks_of_short (l : list byte) :
  (length l < 64)%nat -> blocks_of l = [].
Proof.
  intros Hl. unfold blocks_of. rewrite Nat.div_small by exact Hl. reflexivity.
Qed.

Lemma blocks_of_cons (l : list byte) :
  (64 <= length l)%nat ->
  blocks_of l = firstn 64 l :: blocks_of (skipn 64 l).
Proof.
  intros Hl. unfold blocks_of. rewrite length_skipn.
  replace (length l / 64)%nat with (S ((length l - 64) / 64)).
  - cbn [seq map]. f_equal. rewrite <- seq_shift, map_map.
    apply map_ext. intros j. rewrite skipn_skipn. do 2 f_equal. lia.
  - replace (length l) with ((length l - 64) + 1 * 64)%nat at 2 by lia.
    rewrite Nat.div_add by lia. lia.
Qed.

Lemma blocks_of_length (l : list byte) :
  Forall (fun b => length b = 64%nat) (blocks_of l).
Proof.
  unfold blocks_of. apply Forall_forall. intros b Hb.
  apply in_map_iff in Hb. destruct Hb as [j [<- Hj]].
  apply in_seq in Hj. rewrite length_firstn, length_skipn.
  assert (64 * (length l / 64) <= length l)%nat
    by (apply Nat.Div0.mul_div_le).
  lia.
Qed.

(** The inner loop of the driver visits the blocks of a chunk whose length
    is a multiple of 64. *)
Lemma hash_chunck_blocks (chunck : list byte) :
  (length chunck mod 64 = 0)%nat ->
  hash_chunck chunck = for_each (blocks_of chunck) compute_hash.
Proof.
  intros Hm. unfold hash_chunck, range, blocks_of, BLOCK_SIZE_BYTE.
  rewrite !for_each_map, Nat.sub_0_r.
  replace ((length chunck + (64 - 1)) / 64)%nat with (length chunck / 64)%nat.
  - apply for_each_ext. intros j _. unfold slice.
    f_equal. f_equal; [lia | f_equal; lia].
  - pose proof (Nat.div_mod_eq (length chunck) 64) as E. rewrite Hm in E.
    rewrite E at 2.
    replace (64 * (length chunck / 64) + 0 + (64 - 1))%nat
      with (63 + (length chunck / 64) * 64)%nat by lia.
    rewrite Nat.div_add by lia. reflexivity.
Qed.

(* ===================================================================== *)
(** ** The driver against single-shot hashing *)
(* ===================================================================== *)

Ltac zlia := zify; Z.div_mod_to_equations; lia.

Lemma zero_fill_bytes (n : nat) :
  zero_fill (Z.of_nat n * 8) = Z.to_nat ((55 - Z.of_nat n) mod 64).
Proof.
  apply Nat2Z.inj. rewrite zero_fill_eq.
  rewrite Z2Nat.id by (apply Z.mod_pos_bound; lia).
  f_equal. f_equal. zlia.
Qed.

Section Message.

(** A message of [n] bytes whose bit length fits the length field. *)
Variable n : nat.
Hypothesis Hsize : Z.of_nat n * 8 < 2 ^ 64.

(** Padding the last chunk of the message appends the padding of the whole
    message. *)
Lemma perform_padding_last (chunck : list byte) :
  (length chunck <= 64)%nat ->
  perform_padding chunck (Z.of_nat n * 8) = Ok (chunck ++ padding_tail n).
Proof.
  intros Hc. rewrite perform_padding_ok by lia.
  rewrite zero_fill_bytes. unfold padding_tail.
  replace (Z.of_nat n * 8) with (8 * Z.of_nat n) by lia. reflexivity.
Qed.

Lemma padding_tail_length :
  length (padding_tail n) = (9 + Z.to_nat ((55 - Z.of_nat n) mod 64))%nat.
Proof.
  unfold padding_tail. rewrite !length_app, repeat_length, big_endian_length.
  simpl. lia.
Qed.

(** A chunk that ends the message is padded to whole blocks. *)
Lemma padded_multiple (rest : list byte) :
  Z.of_nat n mod 64 = Z.of_nat (length rest) mod 64 ->
  (length (rest ++ padding_tail n) mod 64 = 0)%nat.
Proof.
  intros Hn. rewrite length_app, padding_tail_length.
  pose proof (Z.mod_pos_bound (55 - Z.of_nat n) 64 ltac:(lia)) as Hz.
  apply Nat2Z.inj. rewrite Nat2Z.inj_mod, !Nat2Z.inj_add, Z2Nat.id by lia.
  change (Z.of_nat 64) with 64. change (Z.of_nat 9) with 9.
  change (Z.of_nat 0) with 0.
  revert Hn Hz. generalize (Z.of_nat (length rest)) (Z.of_nat n).
  intros a b Hn Hz. Z.div_mod_to_equations. lia.
Qed.

(** The read loop, entered with [rest] still to read and the number of
    chunks [rest] makes, compresses the blocks of [rest] followed by the
    padding.  [m] bounds the length of [rest] for the induction. *)
Lemma read_loop_blocks (m : nat) :
  forall (rest : list byte) (nb_chuncks : Z) (w : world),
    (length rest <= m)%nat ->
    rest <> [] ->
    Z.of_nat n mod 64 = Z.of_nat (length rest) mod 64 ->
    nb_chuncks = (Z.of_nat (length rest) + 63) / 64 ->
    read_loop rest nb_chuncks (Z.of_nat n * 8) w
    = for_each (blocks_of (rest ++ padding_tail n)) compute_hash w.
Proof.
  induction m as [|m IH]; intros rest nb w Hm Hne Hn Hnb.
  { destruct rest; [contradiction | simpl in Hm; lia]. }
  destruct rest as [|b r]; [contradiction|]. clear Hne.
  rewrite read_loop_equation_2. cbv zeta. unfold BLOCK_SIZE_BYTE.
  assert (0 < length (b :: r))%nat as Hpos by (simpl; lia).
  destruct (Nat.le_gt_cases (length (b :: r)) 64) as [Hle|Hgt].
  - (* the last chunk *)
    assert (nb = 1) as -> by (subst nb; zlia).
    rewrite Z.eqb_refl, firstn_all2, skipn_all2 by exact Hle.
    rewrite read_loop_equation_1.
    unfold bind at 1, lift.
    rewrite perform_padding_last by assumption.
    rewrite bind_ret_tt, hash_chunck_blocks by (apply padded_multiple; exact Hn).
    reflexivity.
  - (* a full chunk that is not the last *)
    assert ((nb =? 1) = false) as -> by (apply Z.eqb_neq; subst nb; zlia).
    unfold bind at 1, ret at 1.
    assert (length (firstn 64 (b :: r)) = 64%nat) as Hchunck
      by (rewrite length_firstn; lia).
    rewrite hash_chunck_blocks by (rewrite Hchunck; reflexivity).
    rewrite (blocks_of_cons (firstn 64 (b :: r))) by lia.
    rewrite (firstn_all2 (n := 64) (firstn 64 (b :: r))) by lia.
    rewrite (blocks_of_short (skipn 64 (firstn 64 (b :: r))))
      by (rewrite length_skipn; lia).
    rewrite (blocks_of_cons ((b :: r) ++ padding_tail n))
      by (rewrite length_app; lia).
    rewrite firstn_app, skipn_app.
    replace (64 - length (b :: r))%nat with 0%nat by lia.
    rewrite firstn_0, skipn_0, app_nil_r.
    cbn [for_each]. rewrite bind_assoc. apply bind_cong_r. intros [] w'.
    unfold bind at 1, ret at 1.
    apply IH.
    + rewrite length_skipn. lia.
    + intros E. apply (f_equal (@length byte)) in E.
      rewrite length_skipn in E. change (length []) with 0%nat in E. lia.
    + rewrite length_skipn. rewrite Hn. zlia.
    + subst nb. rewrite length_skipn. zlia.
Qed.

End Message.

(** On a regular file that is not too big, [main] is single-shot hashing of
    the content followed by the rendering of [H]. *)
Lemma main_one_shot (prog path : string) (fs : filesystem) (f : file) :
  fs path = Some f ->
  st_size f = Z.of_nat (length (content f)) ->
  st_size f * 8 < 2 ^ 64 ->
  forall w, main [prog; path] fs w = (one_shot (content f) ;; hexdigest) w.
Proof.
  intros Hfs Hreg Hsize w. unfold main. cbn [length Nat.eqb negb].
  unfold bind at 1, lift, index. cbn [nth_error]. rewrite Hfs. cbv zeta.
  destruct (Z.leb_spec (2 ^ 64) (st_size f * 8)) as [|_]; [lia|].
  fold hexdigest. apply bind_cong. unfold one_shot, pad_message.
  rewrite Hreg in Hsize |- *.
  destruct (content f) as [|b r] eqn:Hc.
  - (* the empty file *)
    change (Z.of_nat (length []) * 8) with (Z.of_nat 0 * 8).
    change (Z.of_nat 0 * 8 =? 0) with true. cbv iota.
    unfold bind at 1, lift. rewrite perform_padding_last by (simpl; lia).
    change (@length byte []) with 0%nat.
    set (block := [] ++ padding_tail 0).
    assert (length block = 64%nat) as Hb by reflexivity.
    rewrite (blocks_of_cons block), firstn_all2, blocks_of_short
      by (rewrite ?length_skipn; lia).
    cbn [for_each]. rewrite bind_ret_tt. reflexivity.
  - assert (0 < length (b :: r))%nat as Hpos by (simpl; lia).
    destruct (Z.eqb_spec (Z.of_nat (length (b :: r)) * 8) 0) as [|_]; [lia|].
    apply read_loop_blocks with (m := length (b :: r)).
    + exact Hsize.
    + lia.
    + discriminate.
    + reflexivity.
    + rewrite Z.shiftr_div_pow2 by lia. unfold BLOCK_SIZE_BYTE.
      change (Z.of_nat 64 * 8) with 512. change (2 ^ 9) with 512.
      destruct (Z.eqb_spec ((Z.of_nat (length (b :: r)) * 8) mod 512) 0);
        cbn [negb]; zlia.
Qed.

(* ===================================================================== *)
(** ** compute_hash against the compression function *)
(* ===================================================================== *)

Lemma index_nth {A} (l : list A) (i : nat) (d : A) :
  (i < length l)%nat -> index l i = Ok (nth i l d).
Proof.
  intros Hi. unfold index.
  destruct (nth_error l i) as [x|] eqn:E.
  - rewrite (nth_error_nth _ _ d E). reflexivity.
  - apply nth_error_None in E. lia.
Qed.

Lemma skipn_cons_nth {A} (l : list A) (i : nat) (d : A) :
  (i < length l)%nat -> skipn i l = nth i l d :: skipn (S i) l.
Proof.
  revert i. induction l as [|x l IH]; intros i Hi; [simpl in Hi; lia|].
  destruct i as [|i]; [reflexivity|].
  simpl in Hi. cbn [skipn nth]. apply IH. lia.
Qed.

Lemma fold_result_app {A S} (body : S -> A -> result S) (l1 l2 : list A)
      (acc : S) :
  fold_result body (l1 ++ l2) acc
  = rbind (fold_result body l1 acc) (fold_result body l2).
Proof.
  revert acc. induction l1 as [|x l1 IH]; intros acc; simpl; [reflexivity|].
  destruct (body acc x) as [acc'|e]; simpl; [apply IH | reflexivity].
Qed.

(** Lines 85-86: the parsing loop appends one word per index. *)
Lemma parse_loop (block : list byte) (l : list nat) (acc : list Z) :
  fold_left (parse_step block) l acc
  = acc ++ map (fun wi => from_bytes_big (slice block (wi * 4) (wi * 4 + 4))) l.
Proof.
  revert acc. induction l as [|wi l IH]; intros acc; simpl.
  - rewrite app_nil_r. reflexivity.
  - rewrite IH. unfold parse_step. rewrite <- app_assoc. reflexivity.
Qed.

(** Four bytes of the block decode to the big-endian word they spell. *)
Lemma parse_word (block : list byte) (t : nat) :
  length block = 64%nat -> (t < 16)%nat ->
  from_bytes_big (slice block (t * 4) (t * 4 + 4)) = block_word block t.
Proof.
  intros Hlen Ht. unfold slice, block_word, big_endian_word.
  replace (t * 4 + 4 - t * 4)%nat with 4%nat by lia.
  replace (t * 4)%nat with (4 * t)%nat by lia.
  rewrite (skipn_cons_nth block (4 * t) x00) by lia.
  rewrite (skipn_cons_nth block (S (4 * t)) x00) by lia.
  rewrite (skipn_cons_nth block (S (S (4 * t))) x00) by lia.
  rewrite (skipn_cons_nth block (S (S (S (4 * t)))) x00) by lia.
  cbn [firstn]. unfold from_bytes_big. cbn [fold_left].
  replace (4 * t + 1)%nat with (S (4 * t)) by lia.
  replace (4 * t + 2)%nat with (S (S (4 * t))) by lia.
  replace (4 * t + 3)%nat with (S (S (S (4 * t)))) by lia.
  change (2 ^ 24) with (256 * 256 * 256). change (2 ^ 16) with (256 * 256).
  change (2 ^ 8) with 256. ring.
Qed.

(** Lines 88-90: the extension loop keeps what is there and appends words
    that obey the recurrence. *)
Lemma extend_loop (ws0 : list Z) (n : nat) :
  length ws0 = 16%nat ->
  exists ws,
    fold_result extend_step (seq 16 n) ws0 = Ok ws /\
    length ws = (16 + n)%nat /\
    (forall t, (t < 16)%nat -> nth t ws 0 = nth t ws0 0) /\
    (forall t, (16 <= t < 16 + n)%nat ->
       nth t ws 0 = (ssig1 (nth (t - 2) ws 0) + nth (t - 7) ws 0
                     + ssig0 (nth (t - 15) ws 0) + nth (t - 16) ws 0)
                    mod 2 ^ 32).
Proof.
  intros H0. induction n as [|n IH].
  - exists ws0. split; [reflexivity|]. split; [lia|].
    split; [intros; reflexivity | intros; lia].
  - destruct IH as [ws [Hrun [Hlen [Hlow Hrec]]]].
    rewrite seq_S, fold_result_app, Hrun. cbn [rbind fold_result].
    unfold extend_step.
    rewrite (index_nth ws (16 + n - 2) 0), (index_nth ws (16 + n - 7) 0),
      (index_nth ws (16 + n - 15) 0), (index_nth ws (16 + n - 16) 0) by lia.
    cbn [rbind]. eexists. split; [reflexivity|].
    split; [rewrite length_app, Hlen; simpl; lia|].
    split.
    + intros t Ht. rewrite app_nth1 by lia. apply Hlow. exact Ht.
    + intros t Ht. destruct (Nat.eq_dec t (16 + n)) as [->|Hne].
      * rewrite <- Hlen at 1. rewrite nth_middle.
        rewrite !app_nth1 by lia. reflexivity.
      * rewrite !app_nth1 by lia. apply Hrec. lia.
Qed.

(** Lines 94-104: the round loop runs the rounds in order. *)
Lemma round_loop (ws : list Z) (v : vars) (n : nat) :
  length ws = 64%nat -> (n <= 64)%nat ->
  fold_result (round_step ws) (seq 0 n) v
  = Ok (spec_rounds (fun t => nth t ws 0) n v).
Proof.
  intros Hlen. induction n as [|n IH]; intros Hn; [reflexivity|].
  rewrite seq_S, fold_result_app, IH by lia. cbn [rbind fold_result plus].
  cbn [spec_rounds].
  destruct (spec_rounds (fun t => nth t ws 0) n v)
    as [[[[[[[a b] c] d] e] f] g] h].
  unfold round_step, spec_round.
  rewrite (index_nth K n 0), (index_nth ws n 0) by (try rewrite Hlen; simpl; lia).
  reflexivity.
Qed.

(** Lines 106-107: the final loop adds the working variables to [H]. *)
Lemma add_loop (v old : vars) (w : world) :
  H w = vars_list old ->
  for_each (enumerate (vars_list v)) add_to_H w
  = (with_H w (vars_list (add_state v old)), Ok tt).
Proof.
  destruct v as [[[[[[[a b] c] d] e] f] g] h].
  destruct old as [[[[[[[h0 h1] h2] h3] h4] h5] h6] h7].
  destruct w as [hw se]. cbn [H vars_list]. intros ->.
  reflexivity.
Qed.

Lemma unpack8_vars_list (v : vars) : unpack8 (skipn 0 (vars_list v)) = Ok v.
Proof. destruct v as [[[[[[[a b] c] d] e] f] g] h]. reflexivity. Qed.

(** [compute_hash] on a 64-byte block, from a world whose [H] holds eight
    words, replaces [H] by the compression of the block and changes nothing
    else. *)
Lemma compute_hash_spec (block : list byte) (w : world) (old : vars) :
  length block = 64%nat ->
  H w = vars_list old ->
  exists W,
    message_schedule block W /\
    compute_hash block w = (with_H w (vars_list (spec_compress W old)), Ok tt).
Proof.
  intros Hlen Hold.
  set (ws0 := map (fun wi => from_bytes_big (slice block (wi * 4) (wi * 4 + 4)))
                  (seq 0 16)).
  destruct (extend_loop ws0 48 eq_refl) as [ws [Hrun [Hws [Hlow Hrec]]]].
  exists (fun t => nth t ws 0). split.
  - split.
    + intros t Ht. rewrite Hlow by exact Ht. unfold ws0.
      rewrite <- (parse_word block t Hlen Ht).
      rewrite (nth_indep _ 0 (from_bytes_big (slice block (0 * 4) (0 * 4 + 4))))
        by (rewrite length_map, length_seq; exact Ht).
      rewrite (map_nth (fun wi => from_bytes_big (slice block (wi * 4) (wi * 4 + 4)))).
      rewrite seq_nth by exact Ht. reflexivity.
    + intros t Ht. apply Hrec. lia.
  - unfold compute_hash. rewrite Hlen. unfold BLOCK_SIZE_BYTE.
    change (64 =? 64)%nat with true. unfold assert.
    unfold bind at 1, ret at 1. cbv zeta.
    change (Nat.shiftr 64 2) with 16%nat.
    rewrite !range_step1, parse_loop. cbn [app].
    change (16 - 0)%nat with 16%nat. change (64 - 16)%nat with 48%nat.
    change (64 - 0)%nat with 64%nat. fold ws0.
    unfold bind at 1, lift at 1. rewrite Hrun.
    unfold bind at 1, get_H at 1. rewrite Hold.
    unfold bind at 1, lift at 1. rewrite unpack8_vars_list.
    unfold bind at 1, lift at 1. rewrite round_loop by lia.
    unfold spec_compress.
    destruct (spec_rounds (fun t => nth t ws 0) 64 old)
      as [[[[[[[a b] c] d] e] f] g] h] eqn:Hr.
    apply (add_loop (a, b, c, d, e, f, g, h) old w Hold).
Qed.

(** The recurrence fixes the schedule: two schedules of the same block
    agree on all 64 words. *)
Lemma message_schedule_unique (block : list byte) (W W' : nat -> Z) :
  message_schedule block W -> message_schedule block W' ->
  forall t, (t < 64)%nat -> W t = W' t.
Proof.
  intros [Hlow Hrec] [Hlow' Hrec'] t.
  induction t as [t IH] using lt_wf_ind. intros Ht.
  destruct (Nat.lt_ge_cases t 16) as [Hs|Hs].
  - rewrite Hlow, Hlow' by exact Hs. reflexivity.
  - rewrite Hrec, Hrec' by lia.
    rewrite (IH (t - 2)%nat), (IH (t - 7)%nat), (IH (t - 15)%nat),
      (IH (t - 16)%nat) by lia.
    reflexivity.
Qed.

(** The rounds read only the first [n] words of the schedule. *)
Lemma spec_rounds_ext (W W' : nat -> Z) (n : nat) (v : vars) :
  (forall t, (t < n)%nat -> W t = W' t) ->
  spec_rounds W n v = spec_rounds W' n v.
Proof.
  induction n as [|n IH]; intros E; [reflexivity|].
  cbn [spec_rounds]. rewrite IH by (intros; apply E; lia).
  unfold spec_round.
  destruct (spec_rounds W' n v) as [[[[[[[a b] c] d] e] f] g] h].
  rewrite (E n) by lia. reflexivity.
Qed.

Lemma vars_list_length (v : vars) : length (vars_list v) = 8%nat.
Proof. destruct v as [[[[[[[a b] c] d] e] f] g] h]. reflexivity. Qed.

Lemma vars_list_exists (l : list Z) :
  length l = 8%nat -> exists v, l = vars_list v.
Proof.
  intros Hl.
  do 8 (destruct l as [|? l]; [discriminate|]).
  destruct l; [|discriminate].
  eexists (_, _, _, _, _, _, _, _). reflexivity.
Qed.

Lemma add_state_range (v old : vars) :
  Forall (fun x => 0 <= x < 2 ^ 32) (vars_list (add_state v old)).
Proof.
  destruct v as [[[[[[[a b] c] d] e] f] g] h].
  destruct old as [[[[[[[h0 h1] h2] h3] h4] h5] h6] h7].
  cbn [add_state vars_list].
  repeat (apply Forall_cons; [apply Z.mod_pos_bound; lia|]). apply Forall_nil.
Qed.

(** The assertion of [compute_hash] fires exactly on blocks that are not 64
    bytes long. *)
Lemma compute_hash_bad_block (block : list byte) (w : world) :
  length block <> 64%nat ->
  compute_hash block w = (w, Raise (AssertionError BadBlockSize)).
Proof.
  intros Hlen. unfold compute_hash, BLOCK_SIZE_BYTE.
  rewrite (proj2 (Nat.eqb_neq _ _) Hlen). reflexivity.
Qed.

Lemma unpack8_bad_length (l : list Z) :
  length l <> 8%nat -> unpack8 (skipn 0 l) = Raise ValueError.
Proof.
  intros Hl. cbn [skipn].
  do 8 (destruct l as [|? l]; [reflexivity|]).
  destruct l; [simpl in Hl; lia | reflexivity].
Qed.

(** On a 64-byte block and an [H] that does not hold eight words, the
    unpacking of [H] fails and nothing has been written. *)
Lemma compute_hash_bad_H (block : list byte) (w : world) :
  length block = 64%nat -> length (H w) <> 8%nat ->
  compute_hash block w = (w, Raise ValueError).
Proof.
  intros Hlen HH.
  set (ws0 := map (fun wi => from_bytes_big (slice block (wi * 4) (wi * 4 + 4)))
                  (seq 0 16)).
  destruct (extend_loop ws0 48 eq_refl) as [ws [Hrun _]].
  unfold compute_hash. rewrite Hlen. unfold BLOCK_SIZE_BYTE.
  change (64 =? 64)%nat with true. unfold assert.
  unfold bind at 1, ret at 1. cbv zeta.
  change (Nat.shiftr 64 2) with 16%nat.
  rewrite !range_step1, parse_loop. cbn [app].
  change (16 - 0)%nat with 16%nat. change (64 - 16)%nat with 48%nat. fold ws0.
  unfold bind at 1, lift at 1. rewrite Hrun.
  unfold bind at 1, get_H at 1.
  unfold bind at 1, lift at 1. rewrite unpack8_bad_length by exact HH.
  reflexivity.
Qed.

(** From an eight-word [H], [compute_hash] on a 64-byte block returns,
    leaves an eight-word [H], and touches nothing else. *)
Lemma compute_hash_ok (block : list byte) (w : world) :
  length block = 64%nat -> length (H w) = 8%nat ->
  exists h', length h' = 8%nat /\ compute_hash block w = (with_H w h', Ok tt).
Proof.
  intros Hlen HH. destruct (vars_list_exists _ HH) as [old Hold].
  destruct (compute_hash_spec block w old Hlen Hold) as [W [_ Hrun]].
  eexists. split; [|exact Hrun]. apply vars_list_length.
Qed.

Lemma for_each_compute_hash_ok (bs : list (list byte)) (w : world) :
  Forall (fun b => length b = 64%nat) bs -> length (H w) = 8%nat ->
  exists h',
    length h' = 8%nat /\ for_each bs compute_hash w = (with_H w h', Ok tt).
Proof.
  intros Hbs. revert w. induction Hbs as [|b bs Hb _ IH]; intros w HH.
  - exists (H w). split; [exact HH|]. destruct w; reflexivity.
  - destruct (compute_hash_ok b w Hb HH) as [h1 [Hh1 Hrun]].
    destruct (IH (with_H w h1) Hh1) as [h2 [Hh2 Hrest]].
    exists h2. split; [exact Hh2|].
    cbn [for_each]. unfold bind. rewrite Hrun, Hrest. reflexivity.
Qed.

(** Compressing 64-byte blocks never trips the block-size assertion. *)
Lemma for_each_compute_hash_no_assert (bs : list (list byte)) (w : world) :
  Forall (fun b => length b = 64%nat) bs ->
  forall site, snd (for_each bs compute_hash w) <> Raise (AssertionError site).
Proof.
  intros Hbs site.
  destruct (Nat.eq_dec (length (H w)) 8) as [HH|HH].
  - destruct (for_each_compute_hash_ok bs w Hbs HH) as [h' [_ ->]].
    discriminate.
  - destruct Hbs as [|b bs Hb _]; [discriminate|].
    cbn [for_each]. unfold bind. rewrite compute_hash_bad_H by assumption.
    discriminate.
Qed.

Lemma pad_message_multiple (msg : list byte) :
  (length (pad_message msg) mod 64 = 0)%nat.
Proof. apply padded_multiple. reflexivity. Qed.

(** The blocks of a string of whole blocks make up the string. *)
Lemma concat_blocks_of (l : list byte) :
  (length l mod 64 = 0)%nat -> List.concat (blocks_of l) = l.
Proof.
  remember (length l) as m eqn:Hm. revert l Hm.
  induction m as [m IH] using lt_wf_ind. intros l Hm Hmod.
  destruct (Nat.lt_ge_cases (length l) 64) as [Hs|Hs].
  - rewrite blocks_of_short by exact Hs.
    destruct l as [|b l]; [reflexivity|].
    rewrite Hm, Nat.mod_small in Hmod by exact Hs. discriminate.
  - rewrite blocks_of_cons by exact Hs. cbn [List.concat].
    rewrite (IH (length (skipn 64 l))).
    + apply firstn_skipn.
    + rewrite length_skipn. lia.
    + reflexivity.
    + rewrite length_skipn. subst m.
      replace (length l) with (length l - 64 + 1 * 64)%nat in Hmod at 1 by lia.
      rewrite Nat.Div0.mod_add in Hmod. exact Hmod.
Qed.

(* ===================================================================== *)
(** ** The properties *)
(* ===================================================================== *)

(** C1.  For the three bytes of "abc" (24 bits), padding the chunk,
    compressing each 64-byte block of the result from the initial hash
    values and rendering the eight final words in hexadecimal gives
    ba7816bf8f01cfea414140de5dae2223b00361a396177a9cb410ff61f20015ad, and
    this is what [main] returns on a file holding these bytes. *)
Theorem digest_abc :
  exists block w',
    perform_padding (bytes_of_string "abc") 24 = Ok block /\
    length block = 64%nat /\
    hash_chunck block initial_world = (w', Ok tt) /\
    hexdigest w' =
      (w', Ok "ba7816bf8f01cfea414140de5dae2223b00361a396177a9cb410ff61f20015ad"%string) /\
    main argv_input (single_file "input" (bytes_of_string "abc")) initial_world =
      (w', Ok "ba7816bf8f01cfea414140de5dae2223b00361a396177a9cb410ff61f20015ad"%string).
Proof.
  eexists. eexists.
  split; [vm_compute; reflexivity|].
  split; [reflexivity|].
  split; [vm_compute; reflexivity|].
  split; vm_compute; reflexivity.
Qed.

(** C2.  On every 64-byte block and every eight-word hash state in [H],
    [compute_hash] returns and leaves in [H] the compression of the block:
    there is a schedule [W] whose first 16 words are the block's big-endian
    words and whose words 16..63 obey the recurrence, the 64 rounds are run
    on it in order from the old state, and the new state is the
    element-wise sum of the result with the old state modulo 2^32; every
    word of the new state is below 2^32. *)
Theorem compute_hash_compression (block : list byte) (w : world) (old : vars) :
  length block = 64%nat ->
  H w = vars_list old ->
  exists W,
    message_schedule block W /\
    compute_hash block w
    = (with_H w (vars_list (add_state (spec_rounds W 64 old) old)), Ok tt) /\
    Forall (fun x => 0 <= x < 2 ^ 32)
           (vars_list (add_state (spec_rounds W 64 old) old)).
Proof.
  intros Hlen Hold.
  destruct (compute_hash_spec block w old Hlen Hold) as [W [HW Hrun]].
  exists W. split; [exact HW|]. split; [exact Hrun|]. apply add_state_range.
Qed.

(** The all-zero block, compressed from the initial state. *)
Lemma compute_hash_compression_witness :
  exists W,
    message_schedule (repeat x00 64) W /\
    compute_hash (repeat x00 64) initial_world
    = (with_H initial_world
         (vars_list
            (add_state
               (spec_rounds W 64
                  (0x6a09e667, 0xbb67ae85, 0x3c6ef372, 0xa54ff53a,
                   0x510e527f, 0x9b05688c, 0x1f83d9ab, 0x5be0cd19))
               (0x6a09e667, 0xbb67ae85, 0x3c6ef372, 0xa54ff53a,
                0x510e527f, 0x9b05688c, 0x1f83d9ab, 0x5be0cd19))), Ok tt) /\
    Forall (fun x => 0 <= x < 2 ^ 32)
      (vars_list
         (add_state
            (spec_rounds W 64
               (0x6a09e667, 0xbb67ae85, 0x3c6ef372, 0xa54ff53a,
                0x510e527f, 0x9b05688c, 0x1f83d9ab, 0x5be0cd19))
            (0x6a09e667, 0xbb67ae85, 0x3c6ef372, 0xa54ff53a,
             0x510e527f, 0x9b05688c, 0x1f83d9ab, 0x5be0cd19))).
Proof.
  apply (compute_hash_compression (repeat x00 64) initial_world); reflexivity.
Defined.

(** C3, as the claim states it, fails: with the empty chunk and a bit
    length of 8 the output has 63 bytes, which is not a multiple of 64. *)
Lemma perform_padding_unaligned :
  exists out,
    perform_padding [] 8 = Ok out /\
    length out = 63%nat /\ (length out mod 64)%nat <> 0%nat.
Proof.
  eexists. split; [vm_compute; reflexivity|].
  split; [reflexivity | discriminate].
Qed.

(** C3, amended.  For every chunk of at most 64 bytes and every bit length
    [0 <= L < 2^64] such that the chunk ends a message of [L] bits (its
    length is congruent modulo 64 to the number of bytes that hold [L]
    bits), [perform_padding] returns the chunk, one byte 0x80, the least
    number of zero bytes that leaves exactly 8 bytes to the next 64-byte
    boundary, and the 8-byte big-endian encoding of [L]; the output length
    is a positive multiple of 64, its last 8 bytes decode to [L], and for a
    chunk of 56 to 63 bytes the output is two blocks, the second made of
    56 zero bytes and the length field. *)
Theorem perform_padding_final_chunk (chunck : list byte) (L : Z) :
  (length chunck <= 64)%nat ->
  0 <= L < 2 ^ 64 ->
  ((L + 7) / 8) mod 64 = Z.of_nat (length chunck) mod 64 ->
  exists zeros out,
    perform_padding chunck L = Ok out /\
    out = chunck ++ [x80] ++ repeat x00 zeros ++ big_endian 8 L /\
    ((length chunck + 1 + zeros) mod 64 = 56)%nat /\
    (forall z, ((length chunck + 1 + z) mod 64 = 56)%nat -> (zeros <= z)%nat) /\
    (0 < length out)%nat /\ (length out mod 64 = 0)%nat /\
    from_bytes_big (skipn (length out - 8) out) = L /\
    ((56 <= length chunck <= 63)%nat ->
       length out = 128%nat /\
       skipn 64 out = repeat x00 56 ++ big_endian 8 L).
Proof.
  intros Hc HL Hcong.
  pose proof (zero_fill_eq L) as Hz.
  assert (Hmod : ((length chunck + 1 + zero_fill L) mod 64 = 56)%nat)
    by (revert Hz; generalize (zero_fill L); intros; zlia).
  exists (zero_fill L). eexists.
  split; [apply perform_padding_ok; assumption|].
  split; [reflexivity|].
  split; [exact Hmod|].
  split; [intros z Hz'; revert Hz' Hmod Hz; generalize (zero_fill L); intros; zlia|].
  rewrite padded_length.
  split; [lia|].
  split; [revert Hmod; generalize (zero_fill L); intros; zlia|].
  split.
  - replace (chunck ++ [x80] ++ repeat x00 (zero_fill L) ++ big_endian 8 L)
      with ((chunck ++ [x80] ++ repeat x00 (zero_fill L)) ++ big_endian 8 L)
      by (rewrite <- !app_assoc; reflexivity).
    rewrite skipn_app.
    assert (length (chunck ++ [x80] ++ repeat x00 (zero_fill L))
            = (length chunck + 1 + zero_fill L + 8 - 8)%nat) as <-
      by (rewrite !length_app, repeat_length; simpl; lia).
    rewrite skipn_all, Nat.sub_diag, skipn_0, app_nil_l.
    rewrite from_bytes_big_endian. change (8 * Z.of_nat 8) with 64.
    apply Z.mod_small. exact HL.
  - intros Hlate.
    assert (zero_fill L = (63 - length chunck) + 56)%nat as ->
      by (revert Hmod Hz; generalize (zero_fill L); intros; zlia).
    split; [lia|].
    rewrite repeat_app.
    replace (chunck ++ [x80] ++ (repeat x00 (63 - length chunck)
                                 ++ repeat x00 56) ++ big_endian 8 L)
      with ((chunck ++ [x80] ++ repeat x00 (63 - length chunck))
            ++ (repeat x00 56 ++ big_endian 8 L))
      by (rewrite <- !app_assoc; reflexivity).
    rewrite skipn_app.
    assert (length (chunck ++ [x80] ++ repeat x00 (63 - length chunck))
            = 64%nat) as Hfirst
      by (rewrite !length_app, repeat_length; cbn [length]; lia).
    rewrite <- Hfirst at 1. rewrite skipn_all, Hfirst, Nat.sub_diag.
    reflexivity.
Qed.

(** The chunk "abc" as the end of a 24-bit message. *)
Lemma perform_padding_final_chunk_witness :
  exists zeros out,
    perform_padding (bytes_of_string "abc") 24 = Ok out /\
    out = bytes_of_string "abc" ++ [x80] ++ repeat x00 zeros ++ big_endian 8 24 /\
    ((length (bytes_of_string "abc") + 1 + zeros) mod 64 = 56)%nat /\
    (forall z, ((length (bytes_of_string "abc") + 1 + z) mod 64 = 56)%nat ->
               (zeros <= z)%nat) /\
    (0 < length out)%nat /\ (length out mod 64 = 0)%nat /\
    from_bytes_big (skipn (length out - 8) out) = 24 /\
    ((56 <= length (bytes_of_string "abc") <= 63)%nat ->
       length out = 128%nat /\
       skipn 64 out = repeat x00 56 ++ big_endian 8 24).
Proof.
  apply (perform_padding_final_chunk (bytes_of_string "abc") 24).
  - simpl. lia.
  - lia.
  - reflexivity.
Defined.

(** C4 fails on the code: for the one-byte file "b" the second final word
    is 0x0039594a, which [main] renders as the six digits 39594a, so the
    string it returns has 62 characters instead of 64. *)
Theorem digest_b_is_short :
  exists w' d,
    main argv_input (single_file "input" (bytes_of_string "b")) initial_world
    = (w', Ok d) /\
    d = "3e23e81639594a33894f6564e1b1348bbd7a0088d42c4acb73eeaed59c009d"%string /\
    String.length d = 62%nat /\
    nth 1 (H w') 0 = 0x0039594a /\
    format_x (nth 1 (H w') 0) = "39594a"%string.
Proof.
  eexists. eexists. split; [vm_compute; reflexivity|].
  repeat split.
Qed.

(** C5, as the claim states it, fails: the string the pipeline yields for
    the empty input is not the 63-character string of the claim. *)
Lemma digest_empty_is_not_63_characters :
  snd ((block <- lift (perform_padding [] 0) ;;
        compute_hash block ;;
        hexdigest) initial_world)
  <> Ok "e3b0c44298fc1c149afbf4c8996fb92427ae41e4649b934ca495991b7852b85"%string.
Proof. vm_compute. discriminate. Qed.

(** C5, amended.  For the empty input (bit length 0), padding the empty
    chunk gives a single 64-byte block, and compressing it from the initial
    hash values and rendering the result gives
    e3b0c44298fc1c149afbf4c8996fb92427ae41e4649b934ca495991b7852b855;
    [main] returns this string on an empty file. *)
Theorem digest_empty :
  exists block w',
    perform_padding [] 0 = Ok block /\
    length block = 64%nat /\
    compute_hash block initial_world = (w', Ok tt) /\
    hexdigest w' =
      (w', Ok "e3b0c44298fc1c149afbf4c8996fb92427ae41e4649b934ca495991b7852b855"%string) /\
    main argv_input (single_file "input" []) initial_world =
      (w', Ok "e3b0c44298fc1c149afbf4c8996fb92427ae41e4649b934ca495991b7852b855"%string).
Proof.
  eexists. eexists.
  split; [vm_compute; reflexivity|].
  split; [reflexivity|].
  split; [vm_compute; reflexivity|].
  split; vm_compute; reflexivity.
Qed.

(** C6, as the claim states it, fails: [compute_hash] changes the global
    [H], and two calls on the same block leave two different states, so
    its effect is not a function of its argument. *)
Lemma compute_hash_writes_global_H :
  let block := repeat x00 64 in
  let w1 := fst (compute_hash block initial_world) in
  let w2 := fst (compute_hash block w1) in
  snd (compute_hash block initial_world) = Ok tt /\
  w1 <> initial_world /\
  H w2 <> H w1.
Proof.
  split; [vm_compute; reflexivity|].
  split; vm_compute; discriminate.
Qed.

(** C6, amended.  [compute_hash] takes the block alone and returns nothing;
    it reads the hash state from the global [H] and overwrites [H] with the
    new state.  On a 64-byte block and an eight-word [H], the new content
    of [H] depends only on the block and on the previous content of [H],
    and nothing else in the world changes. *)
Theorem compute_hash_effect (block : list byte) (w1 w2 : world) :
  length block = 64%nat ->
  length (H w1) = 8%nat ->
  H w1 = H w2 ->
  exists h',
    length h' = 8%nat /\
    compute_hash block w1 = (with_H w1 h', Ok tt) /\
    compute_hash block w2 = (with_H w2 h', Ok tt).
Proof.
  intros Hlen HH Hsame.
  destruct (vars_list_exists _ HH) as [old Hold].
  destruct (compute_hash_spec block w1 old Hlen Hold) as [W1 [HW1 Hrun1]].
  assert (H w2 = vars_list old) as Hold2 by (rewrite <- Hsame; exact Hold).
  destruct (compute_hash_spec block w2 old Hlen Hold2) as [W2 [HW2 Hrun2]].
  exists (vars_list (spec_compress W1 old)).
  split; [apply vars_list_length|]. split; [exact Hrun1|].
  rewrite Hrun2. unfold spec_compress.
  rewrite (spec_rounds_ext W2 W1 64 old); [reflexivity|].
  intros t Ht. apply (message_schedule_unique block); assumption.
Qed.

(** Two worlds with the initial [H] that differ in what was printed. *)
Lemma compute_hash_effect_witness :
  exists h',
    length h' = 8%nat /\
    compute_hash (repeat x00 64) initial_world
    = (with_H initial_world h', Ok tt) /\
    compute_hash (repeat x00 64) {| H := H_initial; stderr := [Usage] |}
    = (with_H {| H := H_initial; stderr := [Usage] |} h', Ok tt).
Proof.
  apply (compute_hash_effect (repeat x00 64) initial_world
           {| H := H_initial; stderr := [Usage] |}); reflexivity.
Defined.

(** C7.  On every regular file whose bit length is below 2^64, the driver
    of [main] (64-byte reads, every chunk but the last compressed as it is,
    the last one padded first) behaves as single-shot hashing, which pads
    the whole content at once and compresses its 64-byte blocks in order:
    from an eight-word [H] both return and leave the same state in [H],
    which is the one [main] renders. *)
Theorem streaming_equals_one_shot
        (prog path : string) (fs : filesystem) (f : file) (w : world) :
  fs path = Some f ->
  st_size f = Z.of_nat (length (content f)) ->
  st_size f * 8 < 2 ^ 64 ->
  length (H w) = 8%nat ->
  main [prog; path] fs w = (one_shot (content f) ;; hexdigest) w /\
  exists h',
    length h' = 8%nat /\
    one_shot (content f) w = (with_H w h', Ok tt) /\
    main [prog; path] fs w
    = (with_H w h', Ok (String.concat EmptyString (map format_x h'))).
Proof.
  intros Hfs Hreg Hsize HH.
  pose proof (main_one_shot prog path fs f Hfs Hreg Hsize w) as Hmain.
  split; [exact Hmain|].
  destruct (for_each_compute_hash_ok (blocks_of (pad_message (content f))) w
              (blocks_of_length _) HH) as [h' [Hh' Hrun]].
  exists h'. split; [exact Hh'|]. split; [exact Hrun|].
  rewrite Hmain. unfold bind. fold (one_shot (content f)) in Hrun.
  rewrite Hrun. reflexivity.
Qed.

(** A file of 100 bytes: one full chunk and a last chunk of 36 bytes. *)
Lemma streaming_equals_one_shot_witness :
  main argv_input (single_file "input" (repeat x61 100)) initial_world
  = (one_shot (repeat x61 100) ;; hexdigest) initial_world /\
  exists h',
    length h' = 8%nat /\
    one_shot (repeat x61 100) initial_world = (with_H initial_world h', Ok tt) /\
    main argv_input (single_file "input" (repeat x61 100)) initial_world
    = (with_H initial_world h', Ok (String.concat EmptyString (map format_x h'))).
Proof.
  apply (streaming_equals_one_shot "sha256.py" "input"
           (single_file "input" (repeat x61 100))
           (regular_file (repeat x61 100)) initial_world); reflexivity.
Defined.

(** C8.  With a chunk of at most 64 bytes, [perform_padding] returns for a
    bit length of exactly 2^64 - 1 (the chunk, 0x80, 55 zero bytes and
    eight bytes 0xff: 64 bytes after the chunk) and fails its input-size
    assertion for every bit length of 2^64 or more; [main] turns away a
    file whose bit length is at least 2^64 with the too-big message and
    [exit], leaving [H] as it was. *)
Theorem input_size_limit
        (chunck : list byte) (L : Z)
        (prog path : string) (fs : filesystem) (f : file) (w : world) :
  (length chunck <= 64)%nat ->
  2 ^ 64 <= L ->
  fs path = Some f ->
  2 ^ 64 <= st_size f * 8 ->
  perform_padding chunck (2 ^ 64 - 1)
  = Ok (chunck ++ [x80] ++ repeat x00 55 ++ repeat xff 8) /\
  length (chunck ++ [x80] ++ repeat x00 55 ++ repeat xff 8)
  = (length chunck + 64)%nat /\
  perform_padding chunck L = Raise (AssertionError BadInputSize) /\
  main [prog; path] fs w
  = ({| H := H w; stderr := stderr w ++ [FileTooBig path] |},
     Raise (SystemExit 0)).
Proof.
  intros Hc HL Hfs Hbig. split; [|split; [|split]].
  - rewrite perform_padding_ok by lia. reflexivity.
  - rewrite !length_app, !repeat_length. simpl. lia.
  - unfold perform_padding.
    rewrite (proj2 (Nat.leb_le _ _) Hc), (proj2 (Z.ltb_ge _ _) HL).
    reflexivity.
  - unfold main. cbn [length Nat.eqb negb].
    unfold bind at 1, lift, index. cbn [nth_error]. rewrite Hfs. cbv zeta.
    rewrite (proj2 (Z.leb_le _ _) Hbig). reflexivity.
Qed.

(** The empty chunk, the bit length 2^64, and a file for which [os.stat]
    reports 2^61 bytes; the size check reads nothing else of the file. *)
Lemma input_size_limit_witness :
  perform_padding [] (2 ^ 64 - 1)
  = Ok ([] ++ [x80] ++ repeat x00 55 ++ repeat xff 8) /\
  length ([] ++ [x80] ++ repeat x00 55 ++ repeat xff 8)
  = (length (@nil byte) + 64)%nat /\
  perform_padding [] (2 ^ 64) = Raise (AssertionError BadInputSize) /\
  main argv_input (fun _ => Some {| st_size := 2 ^ 61; content := [] |})
       initial_world
  = ({| H := H initial_world;
        stderr := stderr initial_world ++ [FileTooBig "input"] |},
     Raise (SystemExit 0)).
Proof.
  apply (input_size_limit [] (2 ^ 64) "sha256.py" "input"
           (fun _ => Some {| st_size := 2 ^ 61; content := [] |})
           {| st_size := 2 ^ 61; content := [] |} initial_world).
  - simpl. lia.
  - lia.
  - reflexivity.
  - cbn [st_size]. lia.
Defined.

(** C9.  From the initial hash state, compressing the all-zero block and
    then the all-0xff block leaves a different state than compressing them
    in the other order. *)
Theorem compression_order_matters :
  exists (w : world) (b1 b2 : list byte),
    length b1 = 64%nat /\ length b2 = 64%nat /\ b1 <> b2 /\
    snd ((compute_hash b1 ;; compute_hash b2) w) = Ok tt /\
    snd ((compute_hash b2 ;; compute_hash b1) w) = Ok tt /\
    H (fst ((compute_hash b1 ;; compute_hash b2) w))
    <> H (fst ((compute_hash b2 ;; compute_hash b1) w)).
Proof.
  exists initial_world, (repeat x00 64), (repeat xff 64).
  split; [reflexivity|]. split; [reflexivity|].
  split; [discriminate|].
  split; [vm_compute; reflexivity|].
  split; [vm_compute; reflexivity|].
  vm_compute. discriminate.
Qed.

(** C10, as the claim states it, fails.  When the bytes read are fewer
    than [os.stat] reported, a short chunk reaches [compute_hash] and the
    block-size assertion fires: with 4096 bytes reported and 2 bytes read,
    the 2-byte chunk is not the last of the 64 expected and is passed
    unpadded; with 64 bytes reported and 2 bytes read, the chunk is padded
    with the bit length 512, [perform_padding] returns 66 bytes, which is
    not a multiple of 64, and the second slice has 2 bytes. *)
Lemma driver_assertion_fires_on_short_read :
  main argv_input
       (fun _ => Some {| st_size := 4096; content := [x30; x0a] |})
       initial_world
  = (initial_world, Raise (AssertionError BadBlockSize)) /\
  (exists out,
     perform_padding [x30; x0a] 512 = Ok out /\
     length out = 66%nat /\ (length out mod 64)%nat <> 0%nat) /\
  snd (main argv_input
            (fun _ => Some {| st_size := 64; content := [x30; x0a] |})
            initial_world)
  = Raise (AssertionError BadBlockSize).
Proof.
  split; [vm_compute; reflexivity|]. split.
  - eexists. split; [vm_compute; reflexivity|].
    split; [reflexivity | discriminate].
  - vm_compute. reflexivity.
Qed.

(** C10, amended.  On every file whose content as read has exactly the
    number of bytes [os.stat] reported and whose bit length is below 2^64,
    the blocks [main] passes to [compute_hash] are the consecutive blocks
    of the padded content, each exactly 64 bytes long, so the block-size
    assertion never fires; from an eight-word [H], [main] returns a
    digest. *)
Theorem driver_blocks_are_full
        (prog path : string) (fs : filesystem) (f : file) (w : world) :
  fs path = Some f ->
  st_size f = Z.of_nat (length (content f)) ->
  st_size f * 8 < 2 ^ 64 ->
  let blocks := blocks_of (pad_message (content f)) in
  main [prog; path] fs w = (for_each blocks compute_hash ;; hexdigest) w /\
  List.concat blocks = pad_message (content f) /\
  blocks <> [] /\
  Forall (fun b => length b = 64%nat) blocks /\
  (forall b w', In b blocks ->
     compute_hash b w' <> (w', Raise (AssertionError BadBlockSize))) /\
  snd (main [prog; path] fs w) <> Raise (AssertionError BadBlockSize) /\
  (length (H w) = 8%nat -> exists d, snd (main [prog; path] fs w) = Ok d).
Proof.
  intros Hfs Hreg Hsize blocks.
  pose proof (main_one_shot prog path fs f Hfs Hreg Hsize w) as Hmain.
  pose proof (blocks_of_length (pad_message (content f))) as Hfull.
  fold blocks in Hfull. unfold one_shot in Hmain. fold blocks in Hmain.
  split; [exact Hmain|].
  split; [apply concat_blocks_of, pad_message_multiple|].
  split.
  { intros E. pose proof (concat_blocks_of _ (pad_message_multiple (content f)))
      as Hcat. fold blocks in Hcat. rewrite E in Hcat.
    apply (f_equal (@length byte)) in Hcat. unfold pad_message in Hcat.
    rewrite length_app, padding_tail_length in Hcat. simpl in Hcat. lia. }
  split; [exact Hfull|].
  split.
  { intros b w' Hb Hrun.
    pose proof (proj1 (Forall_forall _ _) Hfull b Hb) as Hlen.
    destruct (Nat.eq_dec (length (H w')) 8) as [HH|HH].
    - destruct (compute_hash_ok b w' Hlen HH) as [h' [_ Hok]].
      rewrite Hok in Hrun. discriminate.
    - rewrite compute_hash_bad_H in Hrun by assumption. discriminate. }
  split.
  - rewrite Hmain. unfold bind.
    pose proof (for_each_compute_hash_no_assert blocks w Hfull BadBlockSize)
      as Hno.
    destruct (for_each blocks compute_hash w) as [w' [[]|e]].
    + discriminate.
    + cbn [snd] in Hno |- *. intros E. apply Hno. inversion E. reflexivity.
  - intros HH.
    destruct (for_each_compute_hash_ok blocks w Hfull HH) as [h' [_ Hrun]].
    rewrite Hmain. unfold bind. rewrite Hrun. eexists. reflexivity.
Qed.

(** A file of 100 bytes: two blocks reach [compute_hash]. *)
Lemma driver_blocks_are_full_witness :
  let blocks := blocks_of (pad_message (repeat x61 100)) in
  main argv_input (single_file "input" (repeat x61 100)) initial_world
  = (for_each blocks compute_hash ;; hexdigest) initial_world /\
  List.concat blocks = pad_message (repeat x61 100) /\
  blocks <> [] /\
  Forall (fun b => length b = 64%nat) blocks /\
  (forall b w', In b blocks ->
     compute_hash b w' <> (w', Raise (AssertionError BadBlockSize))) /\
  snd (main argv_input (single_file "input" (repeat x61 100)) initial_world)
  <> Raise (AssertionError BadBlockSize) /\
  (length (H initial_world) = 8%nat ->
   exists d,
     snd (main argv_input (single_file "input" (repeat x61 100)) initial_world)
     = Ok d).
Proof.
  apply (driver_blocks_are_full "sha256.py" "input"
           (single_file "input" (repeat x61 100))
           (regular_file (repeat x61 100)) initial_world); reflexivity.
Defined.

(* ===================================================================== *)
(** ** Further properties: the primitives on 32-bit words *)
(* ===================================================================== *)

Lemma word_high_bit (x i : Z) : is_word x -> 32 <= i -> Z.testbit x i = false.
Proof.
  intros Hx Hi. rewrite <- (Z.mod_small x (2 ^ 32)) by exact Hx.
  apply Z.mod_pow2_bits_high. lia.
Qed.

Lemma word_of_bits (x : Z) :
  0 <= x -> (forall i, 32 <= i -> Z.testbit x i = false) -> is_word x.
Proof.
  intros Hx Hb. split; [exact Hx|].
  replace x with (x mod 2 ^ 32); [apply Z.mod_pos_bound; lia|].
  apply Z.bits_inj'. intros i Hi.
  destruct (Z.lt_ge_cases i 32) as [Hlt|Hge].
  - apply Z.mod_pow2_bits_low. lia.
  - rewrite Z.mod_pow2_bits_high, Hb by lia. reflexivity.
Qed.

Lemma rotr_bit (x n i : Z) :
  is_word x -> 0 <= n <= 32 -> 0 <= i < 32 ->
  Z.testbit (rotr x n) i = Z.testbit x ((i + n) mod 32).
Proof.
  intros Hx Hn Hi. unfold rotr.
  rewrite Z.lor_spec, Z.shiftr_spec, Z.mod_pow2_bits_low by lia.
  rewrite Z.shiftl_spec by lia.
  destruct (Z.lt_ge_cases (i + n) 32) as [Hlt|Hge].
  - rewrite (Z.mod_small (i + n) 32) by lia.
    rewrite (Z.testbit_neg_r x (i - (32 - n))) by lia. apply orb_false_r.
  - rewrite (word_high_bit x (i + n)) by assumption.
    replace ((i + n) mod 32) with (i - (32 - n)); [reflexivity|].
    apply Z.mod_unique with (q := 1); lia.
Qed.

Lemma rotr_is_word (x n : Z) : is_word x -> 0 <= n <= 32 -> is_word (rotr x n).
Proof.
  intros Hx Hn. apply word_of_bits.
  - unfold rotr. apply Z.lor_nonneg. split.
    + apply Z.shiftr_nonneg. apply Hx.
    + apply Z.mod_pos_bound. lia.
  - intros i Hi. unfold rotr.
    rewrite Z.lor_spec, Z.shiftr_spec, Z.mod_pow2_bits_high by lia.
    rewrite (word_high_bit x (i + n)) by (assumption || lia). reflexivity.
Qed.

(** Two words with the same 32 low bits are equal. *)
Lemma word_bits_inj (x y : Z) :
  is_word x -> is_word y ->
  (forall i, 0 <= i < 32 -> Z.testbit x i = Z.testbit y i) -> x = y.
Proof.
  intros Hx Hy E. apply Z.bits_inj'. intros i Hi.
  destruct (Z.lt_ge_cases i 32) as [Hlt|Hge]; [apply E; lia|].
  rewrite !word_high_bit by assumption. reflexivity.
Qed.

Lemma lxor_is_word (x y : Z) : is_word x -> is_word y -> is_word (Z.lxor x y).
Proof.
  intros Hx Hy. apply word_of_bits.
  - apply Z.lxor_nonneg. split; intros _; [apply Hy | apply Hx].
  - intros i Hi. rewrite Z.lxor_spec, !word_high_bit by assumption. reflexivity.
Qed.

Lemma shiftr_is_word (x n : Z) : is_word x -> 0 <= n -> is_word (Z.shiftr x n).
Proof.
  intros Hx Hn. apply word_of_bits.
  - apply Z.shiftr_nonneg. apply Hx.
  - intros i Hi. rewrite Z.shiftr_spec by lia.
    apply word_high_bit; [exact Hx | lia].
Qed.

Lemma ch_bit (x y z i : Z) :
  0 <= i ->
  Z.testbit (ch x y z) i
  = if Z.testbit x i then Z.testbit y i else Z.testbit z i.
Proof.
  intros Hi. unfold ch.
  rewrite Z.lxor_spec, !Z.land_spec, Z.lnot_spec by exact Hi.
  destruct (Z.testbit x i), (Z.testbit y i), (Z.testbit z i); reflexivity.
Qed.

Lemma maj_bit (x y z i : Z) :
  Z.testbit (maj x y z) i
  = (Z.testbit x i && Z.testbit y i) || (Z.testbit x i && Z.testbit z i)
    || (Z.testbit y i && Z.testbit z i).
Proof.
  unfold maj. rewrite !Z.lxor_spec, !Z.land_spec.
  destruct (Z.testbit x i), (Z.testbit y i), (Z.testbit z i); reflexivity.
Qed.

Lemma rotr_lxor (x y n : Z) :
  is_word x -> is_word y -> 0 <= n <= 32 ->
  rotr (Z.lxor x y) n = Z.lxor (rotr x n) (rotr y n).
Proof.
  intros Hx Hy Hn. apply word_bits_inj.
  - apply rotr_is_word; [apply lxor_is_word|]; assumption.
  - apply lxor_is_word; apply rotr_is_word; assumption.
  - intros i Hi.
    rewrite Z.lxor_spec, !rotr_bit, Z.lxor_spec
      by (assumption || apply lxor_is_word; assumption).
    reflexivity.
Qed.

(** X1.  On a 32-bit word and a count between 0 and 32, [rotr] is the
    rotation to the right: the result is a 32-bit word whose bit [i] is
    bit [(i + n) mod 32] of the argument. *)
Theorem rotr_rotates (x n : Z) :
  is_word x -> 0 <= n <= 32 ->
  is_word (rotr x n) /\
  forall i, 0 <= i < 32 ->
    Z.testbit (rotr x n) i = Z.testbit x ((i + n) mod 32).
Proof.
  intros Hx Hn. split; [apply rotr_is_word; assumption|].
  intros i Hi. apply rotr_bit; assumption.
Qed.

Lemma rotr_rotates_witness :
  is_word (rotr 0x12345678 8) /\
  forall i, 0 <= i < 32 ->
    Z.testbit (rotr 0x12345678 8) i = Z.testbit 0x12345678 ((i + 8) mod 32).
Proof.
  apply (rotr_rotates 0x12345678 8); unfold is_word; lia.
Defined.

(** X2.  Rotations of a 32-bit word compose by adding the counts modulo
    32; rotating by [n] and then by [32 - n] gives the word back. *)
Theorem rotr_compose (x n m : Z) :
  is_word x -> 0 <= n <= 32 -> 0 <= m <= 32 ->
  rotr (rotr x n) m = rotr x ((n + m) mod 32) /\
  rotr (rotr x n) (32 - n) = x.
Proof.
  intros Hx Hn Hm.
  assert (forall k, 0 <= k <= 32 ->
            rotr (rotr x n) k = rotr x ((n + k) mod 32)) as Hcomp.
  { intros k Hk.
    assert (0 <= (n + k) mod 32 < 32) as Hnk by (apply Z.mod_pos_bound; lia).
    apply word_bits_inj.
    - repeat apply rotr_is_word; assumption.
    - apply rotr_is_word; [assumption | lia].
    - intros i Hi.
      rewrite !rotr_bit
        by (assumption || lia || (apply rotr_is_word; assumption)).
      f_equal. rewrite Z.add_mod_idemp_l by lia.
      rewrite Z.add_mod_idemp_r by lia. f_equal. lia. }
  split; [apply Hcomp; exact Hm|].
  rewrite Hcomp by lia.
  replace ((n + (32 - n)) mod 32) with 0
    by (apply Z.mod_unique with (q := 1); lia).
  apply word_bits_inj; [apply rotr_is_word; [assumption | lia] | assumption |].
  intros i Hi. rewrite rotr_bit by (assumption || lia).
  rewrite Z.add_0_r, Z.mod_small by lia. reflexivity.
Qed.

Lemma rotr_compose_witness :
  rotr (rotr 0x12345678 8) 30 = rotr 0x12345678 ((8 + 30) mod 32) /\
  rotr (rotr 0x12345678 8) (32 - 8) = 0x12345678.
Proof.
  apply (rotr_compose 0x12345678 8 30); unfold is_word; lia.
Defined.

(** X3.  [ch] chooses bit by bit: bit [i] of [ch x y z] is bit [i] of [y]
    where [x] has a one and bit [i] of [z] where [x] has a zero; on 32-bit
    words the result is a 32-bit word, although [~x] is negative. *)
Theorem ch_chooses (x y z : Z) :
  is_word x -> is_word y -> is_word z ->
  is_word (ch x y z) /\
  forall i, 0 <= i ->
    Z.testbit (ch x y z) i
    = if Z.testbit x i then Z.testbit y i else Z.testbit z i.
Proof.
  intros Hx Hy Hz. split; [|intros i Hi; apply ch_bit; exact Hi].
  apply word_of_bits.
  - unfold ch. apply Z.lxor_nonneg. split; intros _.
    + apply Z.land_nonneg. right. apply Hz.
    + apply Z.land_nonneg. right. apply Hy.
  - intros i Hi. rewrite ch_bit by lia.
    rewrite (word_high_bit y i), (word_high_bit z i) by assumption.
    destruct (Z.testbit x i); reflexivity.
Qed.

Lemma ch_chooses_witness :
  is_word (ch 0xffff0000 0x12345678 0x9abcdef0) /\
  forall i, 0 <= i ->
    Z.testbit (ch 0xffff0000 0x12345678 0x9abcdef0) i
    = if Z.testbit 0xffff0000 i then Z.testbit 0x12345678 i
      else Z.testbit 0x9abcdef0 i.
Proof.
  apply (ch_chooses 0xffff0000 0x12345678 0x9abcdef0); unfold is_word; lia.
Defined.

(** X4.  [maj] is the bitwise majority of its three arguments, and a
    32-bit word on 32-bit words. *)
Theorem maj_majority (x y z : Z) :
  is_word x -> is_word y -> is_word z ->
  is_word (maj x y z) /\
  forall i,
    Z.testbit (maj x y z) i
    = (Z.testbit x i && Z.testbit y i) || (Z.testbit x i && Z.testbit z i)
      || (Z.testbit y i && Z.testbit z i).
Proof.
  intros Hx Hy Hz. split; [|intros i; apply maj_bit].
  apply word_of_bits.
  - unfold maj.
    assert (0 <= Z.land x y) by (apply Z.land_nonneg; left; apply Hx).
    assert (0 <= Z.land x z) by (apply Z.land_nonneg; left; apply Hx).
    assert (0 <= Z.land y z) by (apply Z.land_nonneg; left; apply Hy).
    apply Z.lxor_nonneg. split; intros _; [assumption|].
    apply Z.lxor_nonneg. split; intros _; assumption.
  - intros i Hi. rewrite maj_bit.
    rewrite (word_high_bit x i), (word_high_bit y i), (word_high_bit z i)
      by assumption.
    reflexivity.
Qed.

Lemma maj_majority_witness :
  is_word (maj 0xff00ff00 0xffff0000 0x0f0f0f0f) /\
  forall i,
    Z.testbit (maj 0xff00ff00 0xffff0000 0x0f0f0f0f) i
    = (Z.testbit 0xff00ff00 i && Z.testbit 0xffff0000 i)
      || (Z.testbit 0xff00ff00 i && Z.testbit 0x0f0f0f0f i)
      || (Z.testbit 0xffff0000 i && Z.testbit 0x0f0f0f0f i).
Proof.
  apply (maj_majority 0xff00ff00 0xffff0000 0x0f0f0f0f); unfold is_word; lia.
Defined.

(** X5.  The four sigma functions map 32-bit words to 32-bit words. *)
Theorem sigma_words (x : Z) :
  is_word x ->
  is_word (bsig0 x) /\ is_word (bsig1 x) /\
  is_word (ssig0 x) /\ is_word (ssig1 x).
Proof.
  intros Hx. unfold bsig0, bsig1, ssig0, ssig1.
  repeat split;
    repeat (apply lxor_is_word || apply rotr_is_word || apply shiftr_is_word);
    (exact Hx || lia).
Qed.

Lemma sigma_words_witness :
  is_word (bsig0 0x6a09e667) /\ is_word (bsig1 0x6a09e667) /\
  is_word (ssig0 0x6a09e667) /\ is_word (ssig1 0x6a09e667).
Proof.
  apply (sigma_words 0x6a09e667); unfold is_word; lia.
Defined.

(** X6.  On 32-bit words the four sigma functions distribute over
    exclusive or. *)
Theorem sigma_linear (x y : Z) :
  is_word x -> is_word y ->
  bsig0 (Z.lxor x y) = Z.lxor (bsig0 x) (bsig0 y) /\
  bsig1 (Z.lxor x y) = Z.lxor (bsig1 x) (bsig1 y) /\
  ssig0 (Z.lxor x y) = Z.lxor (ssig0 x) (ssig0 y) /\
  ssig1 (Z.lxor x y) = Z.lxor (ssig1 x) (ssig1 y).
Proof.
  intros Hx Hy. unfold bsig0, bsig1, ssig0, ssig1.
  rewrite !rotr_lxor, !Z.shiftr_lxor by (assumption || lia).
  repeat split; apply Z.bits_inj'; intros i _; rewrite !Z.lxor_spec;
    repeat match goal with
           | |- context [Z.testbit ?a i] => generalize (Z.testbit a i); intro
           end;
    repeat match goal with b : bool |- _ => destruct b end; reflexivity.
Qed.

Lemma sigma_linear_witness :
  bsig0 (Z.lxor 0x12345678 0x9abcdef0)
  = Z.lxor (bsig0 0x12345678) (bsig0 0x9abcdef0) /\
  bsig1 (Z.lxor 0x12345678 0x9abcdef0)
  = Z.lxor (bsig1 0x12345678) (bsig1 0x9abcdef0) /\
  ssig0 (Z.lxor 0x12345678 0x9abcdef0)
  = Z.lxor (ssig0 0x12345678) (ssig0 0x9abcdef0) /\
  ssig1 (Z.lxor 0x12345678 0x9abcdef0)
  = Z.lxor (ssig1 0x12345678) (ssig1 0x9abcdef0).
Proof.
  apply (sigma_linear 0x12345678 0x9abcdef0); unfold is_word; lia.
Defined.

(* ===================================================================== *)
(** ** Further properties: perform_padding *)
(* ===================================================================== *)

(** What a returned value tells about the arguments. *)
Lemma perform_padding_inv (chunck : list byte) (L : Z) (out : list byte) :
  perform_padding chunck L = Ok out ->
  (length chunck <= 64)%nat /\ 0 <= L < 2 ^ 64 /\
  out = chunck ++ [x80] ++ repeat x00 (zero_fill L) ++ big_endian 8 L.
Proof.
  unfold perform_padding, to_bytes_big. change (8 * Z.of_nat 8) with 64.
  destruct (Nat.leb_spec (length chunck) 64) as [Hc|Hc]; cbn [negb];
    [|discriminate].
  destruct (Z.ltb_spec L (2 ^ 64)) as [Hhi|Hhi]; cbn [negb]; [|discriminate].
  cbv zeta.
  destruct (Z.ltb_spec L 0) as [Hlo|Hlo]; cbn [rbind]; [discriminate|].
  destruct (Z.leb_spec (2 ^ 64) L) as [Habs|_]; [lia|]. cbn [rbind].
  intros E. injection E as <-. repeat split; try assumption.
Qed.

Lemma app_same_length_tail {A} (p1 p2 s1 s2 : list A) :
  length s1 = length s2 -> p1 ++ s1 = p2 ++ s2 -> p1 = p2 /\ s1 = s2.
Proof.
  intros Hs E.
  assert (length p1 = length p2) as Hp.
  { apply (f_equal (@Datatypes.length A)) in E. rewrite !length_app in E. lia. }
  revert p2 E Hp. induction p1 as [|x p1 IH]; intros [|y p2] E Hp;
    try discriminate.
  - split; [reflexivity | exact E].
  - injection E as -> E. injection Hp as Hp.
    destruct (IH p2 E Hp) as [-> ->]. split; reflexivity.
Qed.

(** X7.  [perform_padding] returns a value exactly when the chunk has at
    most 64 bytes and the bit length lies in [0, 2^64). *)
Theorem perform_padding_returns_iff (chunck : list byte) (L : Z) :
  (exists out, perform_padding chunck L = Ok out)
  <-> ((length chunck <= 64)%nat /\ 0 <= L < 2 ^ 64).
Proof.
  split.
  - intros [out E]. apply perform_padding_inv in E. tauto.
  - intros [Hc HL]. eexists. apply perform_padding_ok; assumption.
Qed.

(** X8.  The failures of [perform_padding] come in a fixed order: a chunk
    of more than 64 bytes fails the chunk-size assertion whatever the bit
    length; otherwise a bit length of 2^64 or more fails the input-size
    assertion, and a negative one makes [to_bytes] raise OverflowError. *)
Theorem perform_padding_error_order (long chunck : list byte) (L big neg : Z) :
  (64 < length long)%nat ->
  (length chunck <= 64)%nat ->
  2 ^ 64 <= big ->
  neg < 0 ->
  perform_padding long L = Raise (AssertionError BadChunkSize) /\
  perform_padding chunck big = Raise (AssertionError BadInputSize) /\
  perform_padding chunck neg = Raise OverflowError.
Proof.
  intros Hlong Hc Hbig Hneg. unfold perform_padding, to_bytes_big.
  repeat split.
  - destruct (Nat.leb_spec (length long) 64); [lia|]. reflexivity.
  - rewrite (proj2 (Nat.leb_le _ _) Hc), (proj2 (Z.ltb_ge _ _) Hbig).
    reflexivity.
  - rewrite (proj2 (Nat.leb_le _ _) Hc).
    destruct (Z.ltb_spec neg (2 ^ 64)); [|lia]. cbn [negb]. cbv zeta.
    rewrite (proj2 (Z.ltb_lt _ _) Hneg). reflexivity.
Qed.

Lemma perform_padding_error_order_witness :
  perform_padding (repeat x00 65) (2 ^ 64)
  = Raise (AssertionError BadChunkSize) /\
  perform_padding [] (2 ^ 64) = Raise (AssertionError BadInputSize) /\
  perform_padding [] (-1) = Raise OverflowError.
Proof.
  apply (perform_padding_error_order (repeat x00 65) [] (2 ^ 64) (2 ^ 64) (-1)).
  - simpl. lia.
  - simpl. lia.
  - lia.
  - lia.
Defined.

(** X9.  Padding is unambiguous: two calls of [perform_padding] that
    return the same bytes were given the same chunk and the same bit
    length. *)
Theorem perform_padding_injective
        (c1 c2 : list byte) (L1 L2 : Z) (out : list byte) :
  perform_padding c1 L1 = Ok out ->
  perform_padding c2 L2 = Ok out ->
  c1 = c2 /\ L1 = L2.
Proof.
  intros E1 E2.
  apply perform_padding_inv in E1. destruct E1 as (Hc1 & HL1 & ->).
  apply perform_padding_inv in E2. destruct E2 as (Hc2 & HL2 & E).
  assert (L1 = L2) as <-.
  { replace (c1 ++ [x80] ++ repeat x00 (zero_fill L1) ++ big_endian 8 L1)
      with ((c1 ++ [x80] ++ repeat x00 (zero_fill L1)) ++ big_endian 8 L1) in E
      by (rewrite <- !app_assoc; reflexivity).
    replace (c2 ++ [x80] ++ repeat x00 (zero_fill L2) ++ big_endian 8 L2)
      with ((c2 ++ [x80] ++ repeat x00 (zero_fill L2)) ++ big_endian 8 L2) in E
      by (rewrite <- !app_assoc; reflexivity).
    apply app_same_length_tail in E; [|rewrite !big_endian_length; reflexivity].
    destruct E as [_ E]. apply (f_equal from_bytes_big) in E.
    rewrite !from_bytes_big_endian in E. change (8 * Z.of_nat 8) with 64 in E.
    rewrite !Z.mod_small in E by assumption. exact E. }
  split; [|reflexivity].
  apply app_same_length_tail in E; [tauto | reflexivity].
Qed.

Lemma perform_padding_injective_witness :
  bytes_of_string "abc" = bytes_of_string "abc" /\ 24 = 24.
Proof.
  apply (perform_padding_injective
           (bytes_of_string "abc") (bytes_of_string "abc") 24 24
           (bytes_of_string "abc" ++ [x80] ++ repeat x00 52 ++ big_endian 8 24));
    vm_compute; reflexivity.
Defined.

(* ===================================================================== *)
(** ** Further properties: compute_hash and the inner loop *)
(* ===================================================================== *)


Lemma for_each_app {A} (l1 l2 : list A) (body : A -> M unit) (w : world) :
  for_each (l1 ++ l2) body w = (for_each l1 body ;; for_each l2 body) w.
Proof.
  revert w. induction l1 as [|x l1 IH]; intros w; cbn [for_each app].
  - reflexivity.
  - rewrite bind_assoc. apply bind_cong_r. intros [] w'. apply IH.
Qed.

(** X10.  [compute_hash] fails without having written anything: when it
    raises, the world is the one it started from, and the exception is
    either the block-size assertion, on a block that is not 64 bytes long,
    or the ValueError of the unpacking, on a 64-byte block when [H] does
    not hold eight words.  It raises nothing else, no IndexError in
    particular. *)
Theorem compute_hash_failure (block : list byte) (w w' : world) (e : exn) :
  compute_hash block w = (w', Raise e) ->
  w' = w /\
  ((e = AssertionError BadBlockSize /\ length block <> 64%nat) \/
   (e = ValueError /\ length block = 64%nat /\ length (H w) <> 8%nat)).
Proof.
  intros E.
  destruct (Nat.eq_dec (length block) 64) as [Hb|Hb].
  - destruct (Nat.eq_dec (length (H w)) 8) as [HH|HH].
    + destruct (compute_hash_ok block w Hb HH) as [h' [_ Hok]].
      rewrite Hok in E. discriminate.
    + rewrite compute_hash_bad_H in E by assumption.
      injection E as <- <-. split; [reflexivity|].
      right. repeat split; assumption.
  - rewrite compute_hash_bad_block in E by assumption.
    injection E as <- <-. split; [reflexivity|].
    left. split; [reflexivity | assumption].
Qed.

Lemma compute_hash_failure_witness :
  initial_world = initial_world /\
  ((AssertionError BadBlockSize = AssertionError BadBlockSize /\
    length (bytes_of_string "abc") <> 64%nat) \/
   (AssertionError BadBlockSize = ValueError /\
    length (bytes_of_string "abc") = 64%nat /\
    length (H initial_world) <> 8%nat)).
Proof.
  apply (compute_hash_failure (bytes_of_string "abc") initial_world).
  vm_compute. reflexivity.
Defined.



(** X11.  The inner loop of the driver (lines 141-142) on a chunk whose
    length is not a multiple of 64: from an eight-word [H] it compresses
    the whole 64-byte blocks of the chunk and then stops on the block-size
    assertion, raised for the short last slice; [H] keeps the state
    reached after the whole blocks. *)
Theorem hash_chunck_partial (chunck : list byte) (w : world) :
  (length chunck mod 64 <> 0)%nat ->
  length (H w) = 8%nat ->
  exists h',
    length h' = 8%nat /\
    for_each (blocks_of chunck) compute_hash w = (with_H w h', Ok tt) /\
    hash_chunck chunck w = (with_H w h', Raise (AssertionError BadBlockSize)).
Proof.
  intros Hmod HH.
  destruct (for_each_compute_hash_ok (blocks_of chunck) w (blocks_of_length _) HH)
    as [h' [Hh' Hrun]].
  exists h'. split; [exact Hh'|]. split; [exact Hrun|].
  unfold hash_chunck, range, BLOCK_SIZE_BYTE. rewrite Nat.sub_0_r.
  replace ((length chunck + (64 - 1)) / 64)%nat with (S (length chunck / 64))
    by zlia.
  rewrite seq_S, map_app, for_each_app. cbn [map for_each plus].
  rewrite for_each_map.
  assert (for_each (seq 0 (length chunck / 64))
            (fun x => compute_hash (slice chunck (x * 64) (x * 64 + 64)))
          = for_each (blocks_of chunck) compute_hash) as ->.
  { unfold blocks_of. rewrite for_each_map. apply for_each_ext. intros j _.
    unfold slice. f_equal. f_equal; [lia | f_equal; lia]. }
  unfold bind at 1. rewrite Hrun. unfold bind at 1.
  rewrite compute_hash_bad_block; [reflexivity|].
  unfold slice. rewrite length_firstn, length_skipn. zlia.
Qed.

Lemma hash_chunck_partial_witness :
  exists h',
    length h' = 8%nat /\
    for_each (blocks_of (repeat x61 100)) compute_hash initial_world
    = (with_H initial_world h', Ok tt) /\
    hash_chunck (repeat x61 100) initial_world
    = (with_H initial_world h', Raise (AssertionError BadBlockSize)).
Proof.
  apply (hash_chunck_partial (repeat x61 100) initial_world).
  - vm_compute. discriminate.
  - reflexivity.
Defined.

(* ===================================================================== *)
(** ** Further properties: main *)
(* ===================================================================== *)


(** X12.  The early exits of [main] (lines 111-118): with anything but two
    command-line words it prints the usage text, and with a path that is
    not a file it prints the not-found message; in both cases it calls
    [exit(0)] and [H] is untouched. *)
Theorem main_early_exits
        (argv : list string) (prog path : string) (fs : filesystem) (w : world) :
  length argv <> 2%nat ->
  fs path = None ->
  main argv fs w
  = ({| H := H w; stderr := stderr w ++ [Usage] |}, Raise (SystemExit 0)) /\
  main [prog; path] fs w
  = ({| H := H w; stderr := stderr w ++ [FileNotFound path] |},
     Raise (SystemExit 0)).
Proof.
  intros Hn Hf. split.
  - unfold main. rewrite (proj2 (Nat.eqb_neq _ _) Hn). reflexivity.
  - unfold main. cbn [length Nat.eqb negb].
    unfold bind at 1. unfold lift at 1. unfold index. cbn [nth_error].
    rewrite Hf. reflexivity.
Qed.

Lemma main_early_exits_witness :
  main ["sha256.py"%string] (fun _ => None) initial_world
  = ({| H := H initial_world; stderr := stderr initial_world ++ [Usage] |},
     Raise (SystemExit 0)) /\
  main argv_input (fun _ => None) initial_world
  = ({| H := H initial_world;
        stderr := stderr initial_world ++ [FileNotFound "input"] |},
     Raise (SystemExit 0)).
Proof.
  apply (main_early_exits ["sha256.py"%string] "sha256.py" "input"
           (fun _ => None) initial_world).
  - simpl. lia.
  - reflexivity.
Defined.



(* ===================================================================== *)
(** ** Further properties: the length of the digest *)
(* ===================================================================== *)

(** The number of hexadecimal digits of a positive number. *)
Lemma of_pos_length (n : nat) :
  forall (p : positive) (rest : string),
    16 ^ Z.of_nat n <= Zpos p < 16 ^ Z.of_nat (S n) ->
    String.length (HexString.Raw.of_pos p rest)
    = (S n + String.length rest)%nat.
Proof.
  induction n as [|n IH]; intros p rest Hp.
  - change (16 ^ Z.of_nat 1) with 16 in Hp. change (16 ^ Z.of_nat 0) with 1 in Hp.
    destruct p as [[[[p|p|]|[p|p|]|]|[[p|p|]|[p|p|]|]|]|[[[p|p|]|[p|p|]|]|[[p|p|]|[p|p|]|]|]|];
      try reflexivity; lia.
  - rewrite !Nat2Z.inj_succ, !Z.pow_succ_r in Hp by lia.
    rewrite Nat2Z.inj_succ, Z.pow_succ_r in IH by lia.
    assert (1 <= 16 ^ Z.of_nat n) as Hpow
      by (pose proof (Z.pow_pos_nonneg 16 (Z.of_nat n)); lia).
    revert Hp IH Hpow. generalize (16 ^ Z.of_nat n). intros P Hp IH Hpow.
    destruct p as [[[[p|p|]|[p|p|]|]|[[p|p|]|[p|p|]|]|]|[[[p|p|]|[p|p|]|]|[[p|p|]|[p|p|]|]|]|];
      try lia;
      cbn [HexString.Raw.of_pos]; rewrite IH by lia; cbn [String.length]; lia.
Qed.

(** A 32-bit word is rendered on one to eight digits, and on eight exactly
    when it is at least 0x10000000. *)
Lemma format_x_length (z : Z) :
  is_word z ->
  (1 <= String.length (format_x z) <= 8)%nat /\
  (String.length (format_x z) = 8%nat <-> 2 ^ 28 <= z).
Proof.
  intros [Hlo Hhi]. destruct z as [|p|p]; [| |lia].
  - cbn. split; [lia|]. split; [discriminate | lia].
  - unfold format_x.
    assert (exists n, (n < 8)%nat /\
                      16 ^ Z.of_nat n <= Zpos p < 16 ^ Z.of_nat (S n) /\
                      (n = 7%nat <-> 2 ^ 28 <= Zpos p)) as (n & Hn & Hp & H7).
    { destruct (Z.lt_ge_cases (Zpos p) (16 ^ 1)); [exists 0%nat|
      destruct (Z.lt_ge_cases (Zpos p) (16 ^ 2)); [exists 1%nat|
      destruct (Z.lt_ge_cases (Zpos p) (16 ^ 3)); [exists 2%nat|
      destruct (Z.lt_ge_cases (Zpos p) (16 ^ 4)); [exists 3%nat|
      destruct (Z.lt_ge_cases (Zpos p) (16 ^ 5)); [exists 4%nat|
      destruct (Z.lt_ge_cases (Zpos p) (16 ^ 6)); [exists 5%nat|
      destruct (Z.lt_ge_cases (Zpos p) (16 ^ 7)); [exists 6%nat|
      exists 7%nat]]]]]]];
      (split; [lia|]); (split; [cbn [Z.of_nat Pos.of_succ_nat Pos.succ]; lia|]);
      (split; [intros E; try discriminate E; lia
              | intros E; try reflexivity; lia]). }
    rewrite (of_pos_length n p EmptyString Hp). cbn [String.length].
    split; [lia|]. rewrite <- H7. lia.
Qed.

Lemma string_length_append (s1 s2 : string) :
  String.length (s1 ++ s2) = (String.length s1 + String.length s2)%nat.
Proof.
  induction s1 as [|c s1 IH]; simpl; [reflexivity | rewrite IH; reflexivity].
Qed.

Lemma concat_empty_length (l : list string) :
  String.length (String.concat EmptyString l) = list_sum (map String.length l).
Proof.
  induction l as [|s l IH]; [reflexivity|].
  destruct l as [|s' l].
  - simpl. lia.
  - change (String.concat EmptyString (s :: s' :: l))
      with (s ++ EmptyString ++ String.concat EmptyString (s' :: l))%string.
    rewrite !string_length_append, IH.
    cbn [String.length map list_sum fold_right]. reflexivity.
Qed.

Lemma rendering_length (h : list Z) :
  Forall is_word h ->
  (length h <= list_sum (map String.length (map format_x h)) <= 8 * length h)%nat /\
  (list_sum (map String.length (map format_x h)) = (8 * length h)%nat
   <-> Forall (fun x => 2 ^ 28 <= x) h).
Proof.
  induction 1 as [|x h Hx Hh [IHb IHe]].
  - cbn. split; [lia|]. split; [constructor | reflexivity].
  - destruct (format_x_length x Hx) as [Hb He].
    unfold list_sum in *. cbn [map fold_right length]. split; [lia|]. split.
    + intros E. constructor; [apply He | apply IHe]; lia.
    + intros HF. inversion HF as [|? ? H1 H2]; subst.
      apply He in H1. apply IHe in H2. lia.
Qed.

Lemma compute_hash_ok_words (block : list byte) (w : world) :
  length block = 64%nat -> length (H w) = 8%nat ->
  exists h',
    length h' = 8%nat /\ Forall is_word h' /\
    compute_hash block w = (with_H w h', Ok tt).
Proof.
  intros Hlen HH. destruct (vars_list_exists _ HH) as [old Hold].
  destruct (compute_hash_spec block w old Hlen Hold) as [W [_ Hrun]].
  eexists. split; [apply vars_list_length|]. split; [|exact Hrun].
  exact (add_state_range _ _).
Qed.

Lemma for_each_compute_hash_words (bs : list (list byte)) (w : world) :
  bs <> [] ->
  Forall (fun b => length b = 64%nat) bs -> length (H w) = 8%nat ->
  exists h',
    length h' = 8%nat /\ Forall is_word h' /\
    for_each bs compute_hash w = (with_H w h', Ok tt).
Proof.
  intros Hne Hbs. revert w Hne.
  induction Hbs as [|b bs Hb Hbs IH]; intros w Hne HH; [contradiction|].
  destruct (compute_hash_ok_words b w Hb HH) as [h1 [Hh1 [Hw1 Hrun]]].
  cbn [for_each]. unfold bind. rewrite Hrun.
  destruct bs as [|b' bs'].
  - exists h1. repeat split; assumption || reflexivity.
  - destruct (IH (with_H w h1) ltac:(discriminate) Hh1) as [h2 [Hh2 [Hw2 Hrest]]].
    exists h2. repeat split; assumption.
Qed.

Lemma pad_message_length (msg : list byte) :
  length (pad_message msg) = (64 * ((length msg + 8) / 64 + 1))%nat.
Proof.
  unfold pad_message. rewrite length_app, padding_tail_length.
  pose proof (Z.mod_pos_bound (55 - Z.of_nat (length msg)) 64 ltac:(lia)) as Hz.
  zlia.
Qed.

Lemma blocks_of_pad_message_count (msg : list byte) :
  length (blocks_of (pad_message msg)) = ((length msg + 8) / 64 + 1)%nat.
Proof.
  unfold blocks_of. rewrite length_map, length_seq, pad_message_length.
  rewrite Nat.mul_comm, Nat.div_mul by lia. reflexivity.
Qed.

(** X14.  On a regular file below 2^64 bits and from an eight-word [H],
    [main] returns a digest of 8 to 64 characters, the final words of [H]
    are 32-bit words, and the digest has its full 64 characters exactly
    when every final word is at least 0x10000000. *)
Theorem main_digest_length
        (prog path : string) (fs : filesystem) (f : file) (w : world) :
  fs path = Some f ->
  st_size f = Z.of_nat (length (content f)) ->
  st_size f * 8 < 2 ^ 64 ->
  length (H w) = 8%nat ->
  exists w' d,
    main [prog; path] fs w = (w', Ok d) /\
    Forall is_word (H w') /\
    (8 <= String.length d <= 64)%nat /\
    (String.length d = 64%nat <-> Forall (fun x => 2 ^ 28 <= x) (H w')).
Proof.
  intros Hfs Hreg Hsize HH.
  assert (blocks_of (pad_message (content f)) <> []) as Hne.
  { intros E. apply (f_equal (@Datatypes.length (list byte))) in E.
    rewrite blocks_of_pad_message_count in E. simpl in E. lia. }
  destruct (for_each_compute_hash_words _ w Hne (blocks_of_length _) HH)
    as [h' [Hh' [Hw' Hrun]]].
  exists (with_H w h'), (String.concat EmptyString (map format_x h')).
  split.
  - rewrite (main_one_shot prog path fs f Hfs Hreg Hsize w).
    unfold bind, one_shot. rewrite Hrun. reflexivity.
  - cbn [H with_H]. split; [exact Hw'|].
    rewrite concat_empty_length.
    destruct (rendering_length h' Hw') as [Hb He]. rewrite Hh' in Hb, He.
    split; [lia | exact He].
Qed.

Lemma main_digest_length_witness :
  exists w' d,
    main argv_input (single_file "input" (bytes_of_string "b")) initial_world
    = (w', Ok d) /\
    Forall is_word (H w') /\
    (8 <= String.length d <= 64)%nat /\
    (String.length d = 64%nat <-> Forall (fun x => 2 ^ 28 <= x) (H w')).
Proof.
  apply (main_digest_length "sha256.py" "input"
           (single_file "input" (bytes_of_string "b"))
           (regular_file (bytes_of_string "b")) initial_world); reflexivity.
Defined.

(** X15.  On a regular file of [n] bytes below 2^64 bits and from an
    eight-word [H], [main] runs [compute_hash] once on each block of the
    padded content, in order, and every call returns: these are
    [(n + 8) / 64 + 1] blocks of 64 bytes each, one more than the whole
    blocks of the content, and two more when the last chunk has 56 bytes
    or more. *)
Theorem main_compression_count
        (prog path : string) (fs : filesystem) (f : file) (w : world) :
  fs path = Some f ->
  st_size f = Z.of_nat (length (content f)) ->
  st_size f * 8 < 2 ^ 64 ->
  length (H w) = 8%nat ->
  let blocks := blocks_of (pad_message (content f)) in
  main [prog; path] fs w = (for_each blocks compute_hash ;; hexdigest) w /\
  (exists h',
     length h' = 8%nat /\
     for_each blocks compute_hash w = (with_H w h', Ok tt)) /\
  List.concat blocks = pad_message (content f) /\
  Forall (fun b => length b = 64%nat) blocks /\
  length blocks = ((length (content f) + 8) / 64 + 1)%nat /\
  length blocks
  = (length (content f) / 64
     + if (length (content f) mod 64 <? 56)%nat then 1 else 2)%nat.
Proof.
  intros Hfs Hreg Hsize HH blocks. subst blocks.
  split; [apply (main_one_shot prog path fs f Hfs Hreg Hsize w)|].
  split; [apply for_each_compute_hash_ok; [apply blocks_of_length | exact HH]|].
  split; [apply concat_blocks_of, pad_message_multiple|].
  split; [apply blocks_of_length|].
  rewrite blocks_of_pad_message_count. split; [reflexivity|].
  destruct (Nat.ltb_spec (length (content f) mod 64) 56); zlia.
Qed.

(** A file of 120 bytes: the last chunk has 56 bytes, three blocks. *)
Lemma main_compression_count_witness :
  let blocks := blocks_of (pad_message (repeat x61 120)) in
  main argv_input (single_file "input" (repeat x61 120)) initial_world
  = (for_each blocks compute_hash ;; hexdigest) initial_world /\
  (exists h',
     length h' = 8%nat /\
     for_each blocks compute_hash initial_world
     = (with_H initial_world h', Ok tt)) /\
  List.concat blocks = pad_message (repeat x61 120) /\
  Forall (fun b => length b = 64%nat) blocks /\
  length blocks = ((length (repeat x61 120) + 8) / 64 + 1)%nat /\
  length blocks
  = (length (repeat x61 120) / 64
     + if (length (repeat x61 120) mod 64 <? 56)%nat then 1 else 2)%nat.
Proof.
  apply (main_compression_count "sha256.py" "input"
           (single_file "input" (repeat x61 120))
           (regular_file (repeat x61 120)) initial_world); reflexivity.
Defined.

(* ===================================================================== *)
(** ** Further properties: the padding as [compute_hash] reads it *)
(* ===================================================================== *)

Lemma big_endian_app (n m : nat) (z : Z) :
  big_endian (n + m) z
  = big_endian n (Z.shiftr z (8 * Z.of_nat m)) ++ big_endian m z.
Proof.
  revert z. induction m as [|m IH]; intros z.
  - rewrite Nat.add_0_r, Z.shiftr_0_r, app_nil_r. reflexivity.
  - replace (n + S m)%nat with (S (n + m)) by lia. cbn [big_endian].
    rewrite IH, Z.shiftr_shiftr by lia. rewrite <- app_assoc.
    do 3 f_equal. lia.
Qed.

Lemma zero_fill_bound (L : Z) : (zero_fill L < 64)%nat.
Proof.
  pose proof (zero_fill_eq L) as Hz.
  pose proof (Z.mod_pos_bound (55 - (L + 7) / 8) 64 ltac:(lia)). lia.
Qed.

(** X16.  Whatever [perform_padding] returns starts with the chunk,
    continues with the byte 0x80, and is 9 to 72 bytes longer than the
    chunk, so it never exceeds 136 bytes. *)
Theorem perform_padding_shape (chunck : list byte) (L : Z) (out : list byte) :
  perform_padding chunck L = Ok out ->
  firstn (length chunck) out = chunck /\
  nth (length chunck) out x00 = x80 /\
  (length chunck + 9 <= length out <= length chunck + 72)%nat /\
  (length out <= 136)%nat.
Proof.
  intros E. apply perform_padding_inv in E. destruct E as (Hc & HL & ->).
  pose proof (zero_fill_bound L) as Hz.
  split; [|split].
  - rewrite firstn_app, Nat.sub_diag, firstn_all, firstn_0, app_nil_r.
    reflexivity.
  - rewrite app_nth2, Nat.sub_diag by lia. reflexivity.
  - rewrite padded_length. lia.
Qed.

Lemma perform_padding_shape_witness :
  firstn (length (bytes_of_string "abc"))
         (bytes_of_string "abc" ++ [x80] ++ repeat x00 52 ++ big_endian 8 24)
  = bytes_of_string "abc" /\
  nth (length (bytes_of_string "abc"))
      (bytes_of_string "abc" ++ [x80] ++ repeat x00 52 ++ big_endian 8 24) x00
  = x80 /\
  (length (bytes_of_string "abc") + 9
   <= length (bytes_of_string "abc" ++ [x80] ++ repeat x00 52 ++ big_endian 8 24)
   <= length (bytes_of_string "abc") + 72)%nat /\
  (length (bytes_of_string "abc" ++ [x80] ++ repeat x00 52 ++ big_endian 8 24)
   <= 136)%nat.
Proof.
  apply (perform_padding_shape (bytes_of_string "abc") 24).
  vm_compute. reflexivity.
Defined.

(** X17.  The length field as the compression reads it: when the chunk
    ends a message of [L] bits, the last 64 bytes of the padded output
    form a block whose words 14 and 15, parsed as [compute_hash] parses
    them (line 86), are the high and the low 32 bits of [L]. *)
Theorem length_field_words (chunck : list byte) (L : Z) :
  (length chunck <= 64)%nat ->
  0 <= L < 2 ^ 64 ->
  ((L + 7) / 8) mod 64 = Z.of_nat (length chunck) mod 64 ->
  exists out,
    perform_padding chunck L = Ok out /\
    let last := skipn (length out - 64) out in
    length last = 64%nat /\
    from_bytes_big (slice last (14 * 4) (14 * 4 + 4)) = L / 2 ^ 32 /\
    from_bytes_big (slice last (15 * 4) (15 * 4 + 4)) = L mod 2 ^ 32 /\
    block_word last 14 = L / 2 ^ 32 /\
    block_word last 15 = L mod 2 ^ 32.
Proof.
  intros Hc HL Hcong. eexists. split; [apply perform_padding_ok; assumption|].
  cbv zeta.
  pose proof (proj2 (perform_padding_aligned_iff chunck L) Hcong) as Hal.
  pose proof (padded_length chunck L) as Hlen.
  set (out := chunck ++ [x80] ++ repeat x00 (zero_fill L) ++ big_endian 8 L)
    in *.
  set (prefix := chunck ++ [x80] ++ repeat x00 (zero_fill L)).
  assert (out = prefix ++ big_endian 4 (Z.shiftr L 32) ++ big_endian 4 L)
    as Hout.
  { unfold out, prefix. rewrite <- !app_assoc.
    change (big_endian 8 L) with (big_endian (4 + 4) L).
    rewrite (big_endian_app 4 4 L). reflexivity. }
  assert (length prefix = (length out - 8)%nat) as Hpre
    by (unfold prefix; rewrite !length_app, repeat_length, Hlen; simpl; lia).
  assert (64 <= length out)%nat as Hbig by (revert Hal; rewrite Hlen; zlia).
  set (last := skipn (length out - 64) out).
  assert (last = skipn (length out - 64) prefix
                 ++ big_endian 4 (Z.shiftr L 32) ++ big_endian 4 L) as Hlast.
  { unfold last. rewrite Hout at 2. rewrite skipn_app.
    replace (length out - 64 - length prefix)%nat with 0%nat by lia.
    reflexivity. }
  assert (length (skipn (length out - 64) prefix) = 56%nat) as Hq
    by (rewrite length_skipn; lia).
  assert (length last = 64%nat) as Hl64
    by (unfold last; rewrite length_skipn; lia).
  assert (from_bytes_big (slice last (14 * 4) (14 * 4 + 4)) = L / 2 ^ 32) as H14.
  { unfold slice. rewrite Hlast. change (14 * 4 + 4 - 14 * 4)%nat with 4%nat.
    change (14 * 4)%nat with 56%nat. rewrite <- Hq at 1.
    rewrite skipn_app, skipn_all, Nat.sub_diag, skipn_0, app_nil_l.
    rewrite firstn_app, big_endian_length, Nat.sub_diag, firstn_0, app_nil_r.
    rewrite <- (big_endian_length 4 (Z.shiftr L 32)) at 1. rewrite firstn_all.
    rewrite from_bytes_big_endian, Z.shiftr_div_pow2 by lia.
    change (8 * Z.of_nat 4) with 32. apply Z.mod_small.
    Z.div_mod_to_equations. lia. }
  assert (from_bytes_big (slice last (15 * 4) (15 * 4 + 4)) = L mod 2 ^ 32) as H15.
  { unfold slice. rewrite Hlast. change (15 * 4 + 4 - 15 * 4)%nat with 4%nat.
    rewrite app_assoc.
    assert (length (skipn (length out - 64) prefix
                    ++ big_endian 4 (Z.shiftr L 32)) = (15 * 4)%nat) as <-
      by (rewrite length_app, Hq, big_endian_length; reflexivity).
    rewrite skipn_app, skipn_all, Nat.sub_diag, skipn_0, app_nil_l.
    rewrite <- (big_endian_length 4 L) at 1. rewrite firstn_all.
    rewrite from_bytes_big_endian. reflexivity. }
  split; [exact Hl64|]. split; [exact H14|]. split; [exact H15|].
  rewrite <- (parse_word last 14 Hl64), <- (parse_word last 15 Hl64) by lia.
  split; assumption.
Qed.

Lemma length_field_words_witness :
  exists out,
    perform_padding (bytes_of_string "abc") 24 = Ok out /\
    let last := skipn (length out - 64) out in
    length last = 64%nat /\
    from_bytes_big (slice last (14 * 4) (14 * 4 + 4)) = 24 / 2 ^ 32 /\
    from_bytes_big (slice last (15 * 4) (15 * 4 + 4)) = 24 mod 2 ^ 32 /\
    block_word last 14 = 24 / 2 ^ 32 /\
    block_word last 15 = 24 mod 2 ^ 32.
Proof.
  apply (length_field_words (bytes_of_string "abc") 24).
  - simpl. lia.
  - lia.
  - reflexivity.
Defined.
